(** * LiveSports-Chat: the websocket hub (internal/websocket/hub.go)

    A shallow embedding of the hub's coordinator (Run, handleRegister,
    handleUnregister, handleBroadcast, broadcastToRoom, checkRateLimit),
    of the match poller (fetchMatchUpdates, matchNeedsUpdate), of the
    initial-data task (sendInitialData), of the persistence task
    (persistMessage) and of the two pumps of a connection (readPump,
    canAccessRoom, writePump).

    Conventions of the embedding:
    - a [*Client] is an address [ptr]; the Client structs live in [heap],
      so that the hub's maps and the pumps share one object per connection;
    - [map[K]bool] fields that only ever receive [true] (h.clients, the
      inner maps of h.rooms) are finite sets; [Client.rooms] keeps its
      boolean values, because canAccessRoom reads them;
    - a Go [range] over a map visits the keys in an unspecified order: the
      loops are written over a key list, and are run on the enumeration
      given by [map_to_list] / [elements];
    - a buffered channel is its buffer, its capacity and its closed flag;
      a send on a closed channel and a nil dereference are [Panic], a
      goroutine that cannot go on is [Blocked];
    - [go f(x)] records a [Task] in [spawned]; the task runs later, as a
      step of its own ([go h.unregister <- client] is read as the
      goroutine that performs the send);
    - time.Now() is the argument [now] (nanoseconds), one reading per
      step; json.Marshal and json.Unmarshal are parameters of the
      development;
    - h.mu is taken by the goroutine of Run only: by handleRegister and
      handleUnregister (Lock, with the Unlock deferred to the return of
      the handler), by checkRateLimit (Lock and Unlock around the limiter
      table) and by broadcastToRoom (RLock and RUnlock around the read of
      h.rooms). A sync.RWMutex is not reentrant. Called by
      handleBroadcast, broadcastToRoom finds h.mu free: this is
      [broadcastToRoom]. Called by handleRegister or handleUnregister,
      it finds h.mu write-locked by its own caller, so that its RLock
      waits for an Unlock that only the return of that caller would
      make: the handler stops there for ever, with the hub as it is at
      that point ([broadcastToRoom_locked], [Blocked]), and the loop of
      Run with it ([Deadlocked]);
    - h.matchMu and c.mu protect one map each and are not part of the
      embedding: a poll is one step, and so is the handling of a frame.
      The logger is left out as well. *)

From stdpp Require Import gmap strings list fin_maps fin_sets.
From Stdlib Require Import ZArith.

Set Default Proof Using "Type".

(** ** internal/models *)

Module models.

Record User := mkUser { User_ID : string; Username : string }.

Record Match := mkMatch {
  ID : string;
  Status : string;
  HomeScore : Z;
  AwayScore : Z;
  MatchData : string
}.

Record MatchEvent := mkMatchEvent { EventType : string; Description : string }.

(** The stored chat message, as far as sendInitialData reads it. *)
Record Message := mkMessage {
  Msg_Content : string;
  Msg_User : option User;
  CreatedAt : Z
}.

Record WSMessage := mkWSMessage {
  WS_Type : string;
  ChatRoom : string;
  Content : string;
  WS_User : option User;
  WS_Match : option Match;
  WS_Event : option MatchEvent;
  Timestamp : Z;
  Error : string;
  Data : string
}.

Definition MessageTypeChat : string := "chat".
Definition MessageTypeJoin : string := "join".
Definition MessageTypeLeave : string := "leave".
Definition MessageTypeTyping : string := "typing".
Definition MessageTypeEvent : string := "event".
Definition MessageTypeError : string := "error".

(** The zero values of time.Time and of string. *)
Definition zero_time : Z := 0.
Definition zero_string : string := EmptyString.

#[global] Instance User_eq_dec : EqDecision User.
Proof. solve_decision. Defined.
#[global] Instance Match_eq_dec : EqDecision Match.
Proof. solve_decision. Defined.
#[global] Instance MatchEvent_eq_dec : EqDecision MatchEvent.
Proof. solve_decision. Defined.
#[global] Instance WSMessage_eq_dec : EqDecision WSMessage.
Proof. solve_decision. Defined.

End models.

Import models.

(** ** golang.org/x/time/rate *)

Module rate.

(** One second, in nanoseconds (time.Second). *)
Definition Second : Z := 1000000000.

(** The token bucket of the package golang.org/x/time/rate (a dependency,
    not part of the sources), as its documentation describes it and as
    section 4.1 of the specification asks of a limiter ("token-bucket with
    a fixed refill rate and burst capacity"), in exact arithmetic.
    A [Limit] is kept as the period between two events, in nanoseconds,
    and the bucket content as [credit], nanoseconds of accumulated
    refill: one token is [period] nanoseconds of credit, the bucket
    holds at most [burst] tokens. A period of zero or less is rate.Inf.
    The package itself counts tokens in float64 and rounds the time to
    wait for a token down to whole nanoseconds: at an instant where the
    bucket is short of a token by less than that rounding it admits
    where the exact bucket refuses. The statements below take the
    decision of the limiter as given, or are evaluated at instants that
    are clear of that rounding. *)
Record Limiter := mkLimiter {
  period : Z;
  burst : Z;
  credit : Z;
  last : Z
}.

(** rate.Every(interval): one event every [interval]. *)
Definition Every (interval : Z) : Z := interval.

(** A limit of [n] events per second, as rate.Limit(n). *)
Definition PerSecond (n : Z) : Z := (Second / n)%Z.

(** rate.NewLimiter(r, b): the bucket starts full. *)
Definition NewLimiter (r : Z) (b : Z) : Limiter :=
  {| period := r; burst := b; credit := (b * r)%Z; last := 0 |}.

(** lim.Allow() at time [now]: refill for the elapsed time, capped at the
    burst; take one token if there is one. A refusal leaves the limiter
    as it was. *)
Definition Allow (now : Z) (lim : Limiter) : bool * Limiter :=
  if (period lim <=? 0)%Z then (true, lim)
  else
    let last' := Z.min now (last lim) in
    let elapsed := (now - last')%Z in
    let credit' := Z.min (burst lim * period lim) (credit lim + elapsed) in
    if (period lim <=? credit')%Z
    then (true, {| period := period lim; burst := burst lim;
                   credit := (credit' - period lim)%Z; last := now |})
    else (false, lim).

End rate.

(** ** Outcomes of a goroutine's step *)

Inductive outcome (A : Type) : Type :=
  | Ok (a : A)
  | Panic
  | Blocked.
Arguments Ok {A} a.
Arguments Panic {A}.
Arguments Blocked {A}.

#[global] Instance outcome_ret : MRet outcome := λ A a, Ok a.
#[global] Instance outcome_bind : MBind outcome := λ A B f o,
  match o with
  | Ok a => f a
  | Panic => Panic
  | Blocked => Blocked
  end.

(** A Client address. *)
Abbreviation ptr := nat (only parsing).

(** What a [go] statement starts. *)
Inductive Task :=
  | GoSendInitialData (client : ptr)
  | GoPersistMessage (message : WSMessage)
  | GoUnregister (client : ptr).

Section hub_code.

(** The bytes written on a connection, and the JSON codec. *)
Context {Payload : Type}.
Variable json_Marshal : WSMessage → option Payload.
Variable json_Unmarshal : Payload → option WSMessage.

(** *** Channels: [send chan []byte] *)

Record Chan := mkChan {
  buf : list Payload;
  cap : nat;
  closed : bool
}.

Inductive SendResult :=
  | Sent (ch : Chan)
  | Full
  | SendOnClosed.

(** One attempt to send [x] on [ch]. *)
Definition chan_send (ch : Chan) (x : Payload) : SendResult :=
  if closed ch then SendOnClosed
  else if bool_decide (length (buf ch) < cap ch)
       then Sent {| buf := buf ch ++ [x]; cap := cap ch; closed := false |}
       else Full.

(** close(ch); closing twice panics. *)
Definition chan_close (ch : Chan) : option Chan :=
  if closed ch then None
  else Some {| buf := buf ch; cap := cap ch; closed := true |}.

(** *** type Client struct

    [c_rooms] is the field [rooms] of the Client; the plain name is kept
    for the field of the Hub. The connection [conn] and the back pointer
    [hub] are left out. *)

Record Client := mkClient {
  user : User;
  c_rooms : gmap string bool;
  send : Chan;
  limiter : rate.Limiter
}.

Definition set_send (c : Client) (ch : Chan) : Client :=
  {| user := user c; c_rooms := c_rooms c; send := ch; limiter := limiter c |}.

Definition set_limiter (c : Client) (l : rate.Limiter) : Client :=
  {| user := user c; c_rooms := c_rooms c; send := send c; limiter := l |}.

(** *** type Hub struct, with the heap of Clients and the started tasks *)

Record State := mkState {
  clients : gset ptr;
  rooms : gmap string (gset ptr);
  matches : gmap string Match;
  roomLimiters : gmap string rate.Limiter;
  heap : gmap ptr Client;
  spawned : list Task;
  ConnectedClients : Z;
  MessagesSent : Z
}.

Definition NewHub : State :=
  {| clients := ∅; rooms := ∅; matches := ∅; roomLimiters := ∅;
     heap := ∅; spawned := []; ConnectedClients := 0; MessagesSent := 0 |}.

Definition set_clients (f : gset ptr → gset ptr) (s : State) : State :=
  {| clients := f (clients s); rooms := rooms s; matches := matches s;
     roomLimiters := roomLimiters s; heap := heap s; spawned := spawned s;
     ConnectedClients := ConnectedClients s; MessagesSent := MessagesSent s |}.

Definition set_rooms (f : gmap string (gset ptr) → gmap string (gset ptr))
    (s : State) : State :=
  {| clients := clients s; rooms := f (rooms s); matches := matches s;
     roomLimiters := roomLimiters s; heap := heap s; spawned := spawned s;
     ConnectedClients := ConnectedClients s; MessagesSent := MessagesSent s |}.

Definition set_matches (f : gmap string Match → gmap string Match)
    (s : State) : State :=
  {| clients := clients s; rooms := rooms s; matches := f (matches s);
     roomLimiters := roomLimiters s; heap := heap s; spawned := spawned s;
     ConnectedClients := ConnectedClients s; MessagesSent := MessagesSent s |}.

Definition set_roomLimiters
    (f : gmap string rate.Limiter → gmap string rate.Limiter)
    (s : State) : State :=
  {| clients := clients s; rooms := rooms s; matches := matches s;
     roomLimiters := f (roomLimiters s); heap := heap s; spawned := spawned s;
     ConnectedClients := ConnectedClients s; MessagesSent := MessagesSent s |}.

Definition set_heap (f : gmap ptr Client → gmap ptr Client) (s : State) : State :=
  {| clients := clients s; rooms := rooms s; matches := matches s;
     roomLimiters := roomLimiters s; heap := f (heap s); spawned := spawned s;
     ConnectedClients := ConnectedClients s; MessagesSent := MessagesSent s |}.

(** [go task]. *)
Definition go (task : Task) (s : State) : State :=
  {| clients := clients s; rooms := rooms s; matches := matches s;
     roomLimiters := roomLimiters s; heap := heap s;
     spawned := spawned s ++ [task];
     ConnectedClients := ConnectedClients s; MessagesSent := MessagesSent s |}.

Definition add_ConnectedClients (d : Z) (s : State) : State :=
  {| clients := clients s; rooms := rooms s; matches := matches s;
     roomLimiters := roomLimiters s; heap := heap s; spawned := spawned s;
     ConnectedClients := (ConnectedClients s + d)%Z;
     MessagesSent := MessagesSent s |}.

Definition inc_MessagesSent (s : State) : State :=
  {| clients := clients s; rooms := rooms s; matches := matches s;
     roomLimiters := roomLimiters s; heap := heap s; spawned := spawned s;
     ConnectedClients := ConnectedClients s;
     MessagesSent := (MessagesSent s + 1)%Z |}.

(** Dereferencing a Client address. *)
Definition deref (p : ptr) (s : State) : outcome Client :=
  match heap s !! p with
  | Some c => Ok c
  | None => Panic
  end.

(** The keys a [range] over Client.rooms visits. *)
Definition room_keys (c : Client) : list string := (map_to_list (c_rooms c)).*1.

(** *** broadcastToRoom *)

(** The body of the fan-out loop for one member:
    [select { case client.send <- payload: default: go h.unregister <- client }]. *)
Definition deliver (payload : Payload) (p : ptr) (s : State) : outcome State :=
  c ← deref p s;
  match chan_send (send c) payload with
  | Sent ch => Ok (set_heap (<[p := set_send c ch]>) s)
  | Full => Ok (go (GoUnregister p) s)
  | SendOnClosed => Panic
  end.

Fixpoint fanout (payload : Payload) (members : list ptr) (s : State)
    : outcome State :=
  match members with
  | [] => Ok s
  | p :: members' => s' ← deliver payload p s; fanout payload members' s'
  end.

Definition broadcastToRoom (room : string) (message : WSMessage) (s : State)
    : outcome State :=
  match json_Marshal message with
  | None => Ok s
  | Some payload => fanout payload (elements (rooms s !!! room)) s
  end.

(** *** broadcastToRoom under the lock of its caller *)

(** broadcastToRoom as handleRegister and handleUnregister call it, with
    h.mu write-locked by the caller: after json.Marshal, h.mu.RLock()
    waits for the Unlock that the caller has deferred to its own
    return. A message that does not marshal is logged and the call
    returns before the lock is asked for. *)
Definition broadcastToRoom_locked (room : string) (message : WSMessage)
    (s : State) : outcome State :=
  match json_Marshal message with
  | None => Ok s
  | Some payload => Blocked
  end.

(** *** handleRegister *)

Definition joinMsg (room : string) (u : User) (now : Z) : WSMessage :=
  {| WS_Type := MessageTypeJoin; ChatRoom := room; Content := zero_string;
     WS_User := Some u; WS_Match := None; WS_Event := None;
     Timestamp := now; Error := zero_string; Data := zero_string |}.

(** The index update of one iteration: create the entry if it is missing,
    then [h.rooms[room][client] = true]. *)
Definition join (p : ptr) (room : string) (rm : gmap string (gset ptr))
    : gmap string (gset ptr) :=
  let rm' := match rm !! room with
             | Some _ => rm
             | None => <[room := ∅]> rm
             end in
  <[room := {[p]} ∪ (rm' !!! room)]> rm'.

(** The loop over client.rooms. The result is the hub as the loop
    leaves it, and the way the loop ends: [Ok] when it has visited
    every room, [Blocked] when a call of broadcastToRoom waits for
    h.mu. *)
Fixpoint register_rooms (p : ptr) (u : User) (now : Z) (rs : list string)
    (s : State) : State * outcome unit :=
  match rs with
  | [] => (s, Ok tt)
  | room :: rs' =>
      let s1 := set_rooms (join p room) s in
      match broadcastToRoom_locked room (joinMsg room u now) s1 with
      | Ok s2 => register_rooms p u now rs' s2
      | Blocked => (s1, Blocked)
      | Panic => (s1, Panic)
      end
  end.

(** handleRegister: the hub as the handler leaves it, and the way the
    handler ends. The gauge is incremented when the loop has ended. *)
Definition handleRegister (p : ptr) (now : Z) (s : State)
    : State * outcome unit :=
  let s1 := set_clients (λ cs, {[p]} ∪ cs) s in
  let s2 := go (GoSendInitialData p) s1 in
  match heap s2 !! p with
  | None => (s2, Panic)
  | Some c =>
      match register_rooms p (user c) now (room_keys c) s2 with
      | (s3, Ok _) => (add_ConnectedClients 1 s3, Ok tt)
      | stopped => stopped
      end
  end.

(** *** handleUnregister *)

Definition leaveMsg (room : string) (u : User) (now : Z) : WSMessage :=
  {| WS_Type := MessageTypeLeave; ChatRoom := room; Content := zero_string;
     WS_User := Some u; WS_Match := None; WS_Event := None;
     Timestamp := now; Error := zero_string; Data := zero_string |}.

(** The index update of one iteration, for a room that has an entry:
    [delete(clients, client)], then the entry is dropped when it is empty. *)
Definition leave (p : ptr) (room : string) (members : gset ptr)
    (rm : gmap string (gset ptr)) : gmap string (gset ptr) :=
  let members' := members ∖ {[p]} in
  if bool_decide (size members' = 0)
  then delete room rm
  else <[room := members']> rm.

Fixpoint unregister_rooms (p : ptr) (u : User) (now : Z) (rs : list string)
    (s : State) : State * outcome unit :=
  match rs with
  | [] => (s, Ok tt)
  | room :: rs' =>
      match rooms s !! room with
      | Some members =>
          let s1 := set_rooms (leave p room members) s in
          match broadcastToRoom_locked room (leaveMsg room u now) s1 with
          | Ok s2 => unregister_rooms p u now rs' s2
          | Blocked => (s1, Blocked)
          | Panic => (s1, Panic)
          end
      | None => unregister_rooms p u now rs' s
      end
  end.

(** handleUnregister: the hub as the handler leaves it, and the way the
    handler ends. [close(client.send)] panics on a nil client and on a
    queue that is closed already. *)
Definition handleUnregister (p : ptr) (now : Z) (s : State)
    : State * outcome unit :=
  if bool_decide (p ∈ clients s) then
    let s1 := set_clients (λ cs, cs ∖ {[p]}) s in
    match heap s1 !! p with
    | None => (s1, Panic)
    | Some c =>
        match chan_close (send c) with
        | None => (s1, Panic)
        | Some ch =>
            let s2 := set_heap (<[p := set_send c ch]>) s1 in
            match unregister_rooms p (user c) now (room_keys c) s2 with
            | (s3, Ok _) => (add_ConnectedClients (-1) s3, Ok tt)
            | stopped => stopped
            end
        end
    end
  else (s, Ok tt).

(** *** checkRateLimit and handleBroadcast *)

Definition checkRateLimit (room : string) (now : Z) (s : State) : bool * State :=
  let lim := match roomLimiters s !! room with
             | Some lim => lim
             | None => rate.NewLimiter (rate.Every rate.Second) 10
             end in
  let '(ok, lim') := rate.Allow now lim in
  (ok, set_roomLimiters (<[room := lim']>) s).

Definition handleBroadcast (message : WSMessage) (now : Z) (s : State)
    : outcome State :=
  let '(ok, s1) := checkRateLimit (ChatRoom message) now s in
  if negb ok then Ok s1
  else
    let s2 := if bool_decide (WS_Type message = MessageTypeChat)
              then go (GoPersistMessage message) s1
              else s1 in
    s3 ← broadcastToRoom (ChatRoom message) message s2;
    Ok (inc_MessagesSent s3).

(** *** The match poller: fetchMatchUpdates and matchNeedsUpdate *)

Definition matchNeedsUpdate (old new : Match) : bool :=
  if bool_decide (HomeScore old ≠ HomeScore new)
     || bool_decide (AwayScore old ≠ AwayScore new)
  then true
  else if bool_decide (Status old ≠ Status new) then true
  else false.

Definition updateMsg (m : Match) (now : Z) : WSMessage :=
  {| WS_Type := MessageTypeEvent; ChatRoom := ID m; Content := zero_string;
     WS_User := None; WS_Match := Some m; WS_Event := None;
     Timestamp := now; Error := zero_string; Data := zero_string |}.

(** [!exists || matchNeedsUpdate(existingMatch, match)]. *)
Definition needs_broadcast (cache : gmap string Match) (m : Match) : bool :=
  match cache !! ID m with
  | None => true
  | Some existingMatch => matchNeedsUpdate existingMatch m
  end.

(** The loop over the fetched matches; the second component lists the
    messages sent on h.broadcast, in order. *)
Fixpoint update_matches (now : Z) (ms : list Match) (s : State)
    : State * list WSMessage :=
  match ms with
  | [] => (s, [])
  | m :: ms' =>
      if needs_broadcast (matches s) m then
        let s1 := set_matches (<[ID m := m]>) s in
        let '(s2, out) := update_matches now ms' s1 in
        (s2, updateMsg m now :: out)
      else update_matches now ms' s
  end.

(** [fetched] is the result of store.GetLiveMatches: [None] is an error. *)
Definition fetchMatchUpdates (fetched : option (list Match)) (now : Z)
    (s : State) : State * list WSMessage :=
  match fetched with
  | None => (s, [])
  | Some ms => update_matches now ms s
  end.

(** *** sendInitialData *)

(** [client.send <- payload], outside a select. *)
Definition send_blocking (p : ptr) (payload : Payload) (s : State)
    : outcome State :=
  c ← deref p s;
  match chan_send (send c) payload with
  | Sent ch => Ok (set_heap (<[p := set_send c ch]>) s)
  | Full => Blocked
  | SendOnClosed => Panic
  end.

Definition historyMsg (room : string) (msg : Message) : WSMessage :=
  {| WS_Type := MessageTypeChat; ChatRoom := room; Content := Msg_Content msg;
     WS_User := Msg_User msg; WS_Match := None; WS_Event := None;
     Timestamp := CreatedAt msg; Error := zero_string; Data := zero_string |}.

Definition matchMsg (room : string) (m : Match) (now : Z) : WSMessage :=
  {| WS_Type := MessageTypeEvent; ChatRoom := room; Content := zero_string;
     WS_User := None; WS_Match := Some m; WS_Event := None;
     Timestamp := now; Error := zero_string; Data := zero_string |}.

(** The loop over the recent messages of one room; the boolean tells
    whether the function returned from inside it (a full queue). *)
Fixpoint send_history (p : ptr) (room : string) (msgs : list Message)
    (s : State) : outcome (State * bool) :=
  match msgs with
  | [] => Ok (s, false)
  | msg :: msgs' =>
      match json_Marshal (historyMsg room msg) with
      | None => send_history p room msgs' s
      | Some payload =>
          c ← deref p s;
          match chan_send (send c) payload with
          | Sent ch =>
              send_history p room msgs' (set_heap (<[p := set_send c ch]>) s)
          | Full => Ok (s, true)
          | SendOnClosed => Panic
          end
      end
  end.

(** [GetRecentMessages room] is the store's answer for the room ([None]
    is an error). *)
Fixpoint initial_rooms (GetRecentMessages : string → option (list Message))
    (p : ptr) (now : Z) (rs : list string) (s : State) : outcome State :=
  match rs with
  | [] => Ok s
  | room :: rs' =>
      match GetRecentMessages room with
      | None => initial_rooms GetRecentMessages p now rs' s
      | Some messages =>
          '(s1, returned) ← send_history p room messages s;
          if returned : bool then Ok s1
          else
            s2 ← match matches s1 !! room with
                 | Some m =>
                     match json_Marshal (matchMsg room m now) with
                     | Some payload => send_blocking p payload s1
                     | None => Ok s1
                     end
                 | None => Ok s1
                 end;
            initial_rooms GetRecentMessages p now rs' s2
      end
  end.

Definition sendInitialData (GetRecentMessages : string → option (list Message))
    (p : ptr) (now : Z) (s : State) : outcome State :=
  c ← deref p s;
  initial_rooms GetRecentMessages p now (room_keys c) s.

(** *** readPump, one frame, and canAccessRoom *)

Definition canAccessRoom (c : Client) (room : string) : bool :=
  default false (c_rooms c !! room).

Definition errorMsg (content : string) : WSMessage :=
  {| WS_Type := MessageTypeError; ChatRoom := zero_string; Content := content;
     WS_User := None; WS_Match := None; WS_Event := None;
     Timestamp := zero_time; Error := zero_string; Data := zero_string |}.

(** [wsMessage.User = c.user; wsMessage.Timestamp = time.Now()]. *)
Definition stamp (u : User) (now : Z) (m : WSMessage) : WSMessage :=
  {| WS_Type := WS_Type m; ChatRoom := ChatRoom m; Content := Content m;
     WS_User := Some u; WS_Match := WS_Match m; WS_Event := WS_Event m;
     Timestamp := now; Error := Error m; Data := Data m |}.

(** The error reply of the read pump: marshal, then a blocking send on
    the connection's own queue. *)
Definition reply_error (p : ptr) (content : string) (s : State)
    : outcome State :=
  match json_Marshal (errorMsg content) with
  | Some payload => send_blocking p payload s
  | None => Ok s
  end.

(** The body of the read loop for a frame that was read without error.
    The result carries the message sent on h.broadcast, if any. *)
Definition readPump_frame (p : ptr) (frame : Payload) (now : Z) (s : State)
    : outcome (State * option WSMessage) :=
  c ← deref p s;
  match json_Unmarshal frame with
  | None => Ok (s, None)
  | Some wsMessage =>
      let '(ok, lim) := rate.Allow now (limiter c) in
      let s1 := set_heap (<[p := set_limiter c lim]>) s in
      if negb ok then
        s2 ← reply_error p "Rate limit exceeded" s1; Ok (s2, None)
      else
        let wsMessage' := stamp (user c) now wsMessage in
        if negb (canAccessRoom c (ChatRoom wsMessage')) then
          s2 ← reply_error p "Room access denied" s1; Ok (s2, None)
        else Ok (s1, Some wsMessage')
  end.

(** *** writePump, one round of the queue case *)

(** The pump takes the next payload and all that are queued behind it. *)
Definition writePump_drain (p : ptr) (s : State) : State :=
  match heap s !! p with
  | Some c =>
      set_heap (<[p := set_send c {| buf := []; cap := cap (send c);
                                     closed := closed (send c) |}]>) s
  | None => s
  end.

(** *** Run, the pumps and the tasks: the states of the system *)

(** Modelled from the spec: the accept path (websocket.NewHandler, which
    the sources do not hold). "A transport-level connection is accepted
    externally and handed to the core as a ConnectionSession,
    pre-authenticated with a user identity and an initial room set"; a
    Connection is "created by the accept path" with "an outbound message
    queue" ("bounded per-connection queues"). The Client that reaches
    h.register is a new object whose queue is open and empty and has
    room for at least one payload. *)
Definition fresh_client (c : Client) : Prop :=
  closed (send c) = false ∧ buf (send c) = [] ∧ 0 < cap (send c).

(** What the goroutine of Run is doing: it is in its loop, between two
    handlers, or it waits for h.mu inside a handler. *)
Inductive Coordinator := Running | Deadlocked.

(** The loop of Run after a handler. *)
Definition Run_after (ending : outcome unit) : Coordinator :=
  match ending with
  | Ok _ => Running
  | _ => Deadlocked
  end.

(** The hub, its coordinator and the read pumps: [reading] holds the
    connections whose read pump is in its loop, [leaving] those whose
    read pump has left the loop and sends the connection on
    h.unregister. *)
Record System := mkSystem {
  hub : State;
  coordinator : Coordinator;
  reading : gset ptr;
  leaving : gset ptr
}.

Definition with_hub (s : State) (σ : System) : System :=
  {| hub := s; coordinator := coordinator σ;
     reading := reading σ; leaving := leaving σ |}.

Definition start : System :=
  {| hub := NewHub; coordinator := Running; reading := ∅; leaving := ∅ |}.

(** The steps of the system. The coordinator takes a request only while
    it is in its loop; a handler that waits for h.mu leaves the hub as
    it is at that point, for the other goroutines to see. A connection
    is handed to h.register once, when it is new, and its pumps run from
    then on; a connection is sent on h.unregister by its read pump, when
    the pump has left its loop, and by the tasks that the fan-out
    starts. The messages on h.broadcast and the answers of the store
    are not constrained. *)
Inductive reachable : System → Prop :=
  | reach_start : reachable start
  | reach_register σ p c now s' ending :
      reachable σ →
      coordinator σ = Running →
      heap (hub σ) !! p = None →
      fresh_client c →
      handleRegister p now (set_heap (<[p := c]>) (hub σ)) = (s', ending) →
      ending ≠ Panic →
      reachable {| hub := s'; coordinator := Run_after ending;
                   reading := {[p]} ∪ reading σ; leaving := leaving σ |}
  | reach_pump_end σ p :
      reachable σ →
      p ∈ reading σ →
      reachable {| hub := hub σ; coordinator := coordinator σ;
                   reading := reading σ ∖ {[p]};
                   leaving := {[p]} ∪ leaving σ |}
  | reach_unregister σ p now s' ending :
      reachable σ →
      coordinator σ = Running →
      p ∈ leaving σ ∨ GoUnregister p ∈ spawned (hub σ) →
      handleUnregister p now (hub σ) = (s', ending) →
      ending ≠ Panic →
      reachable {| hub := s'; coordinator := Run_after ending;
                   reading := reading σ; leaving := leaving σ |}
  | reach_broadcast σ message now s' :
      reachable σ →
      coordinator σ = Running →
      handleBroadcast message now (hub σ) = Ok s' →
      reachable (with_hub s' σ)
  | reach_poll σ fetched now :
      reachable σ →
      reachable (with_hub (fetchMatchUpdates fetched now (hub σ)).1 σ)
  | reach_initial σ get p now s' :
      reachable σ →
      GoSendInitialData p ∈ spawned (hub σ) →
      sendInitialData get p now (hub σ) = Ok s' →
      reachable (with_hub s' σ)
  | reach_frame σ p frame now s' submitted :
      reachable σ →
      p ∈ reading σ →
      readPump_frame p frame now (hub σ) = Ok (s', submitted) →
      reachable (with_hub s' σ)
  | reach_write σ p :
      reachable σ →
      reachable (with_hub (writePump_drain p (hub σ)) σ).

End hub_code.

(** ** Vocabulary of the statements *)

Section vocabulary.

Context {Payload : Type}.
Implicit Types (s : @State Payload) (c : @Client Payload).

(** The room set of the connection at [p], as far as its keys go. *)
Definition rooms_of s (p : ptr) : gset string :=
  match heap s !! p with
  | Some c => dom (c_rooms c)
  | None => ∅
  end.

(** The outbound queue of the connection at [p]. *)
Definition queue s (p : ptr) : list Payload :=
  match heap s !! p with
  | Some c => buf (send c)
  | None => []
  end.

Definition queue_closed s (p : ptr) : bool :=
  match heap s !! p with
  | Some c => closed (send c)
  | None => false
  end.

Definition queue_full s (p : ptr) : bool :=
  match heap s !! p with
  | Some c => bool_decide (cap (send c) ≤ length (buf (send c)))
  | None => false
  end.

(** What no step of the hub changes in a Client: its identity, its room
    set, and the capacity and closed flag of its queue. *)
Definition static c : User * gmap string bool * nat * bool :=
  (user c, c_rooms c, cap (send c), closed (send c)).

Definition heap_ext (h h' : gmap ptr (@Client Payload)) : Prop :=
  ∀ q, static <$> h' !! q = static <$> h !! q.

(** The hub's own fields agree. *)
Definition same_index s s' : Prop :=
  clients s' = clients s ∧ rooms s' = rooms s.

Definition same_hub s s' : Prop :=
  same_index s s' ∧ matches s' = matches s ∧
  roomLimiters s' = roomLimiters s.

Definition nonempty_entries (rm : gmap string (gset ptr)) : Prop :=
  ∀ r ms, rm !! r = Some ms → ms ≠ ∅.

(** Every member of every room is a live object with an open queue. *)
Definition members_open s : Prop :=
  ∀ r q, q ∈ rooms s !!! r → is_Some (heap s !! q) ∧ queue_closed s q = false.

(** The invariant of the index. *)
Record Inv s : Prop := {
  inv_nonempty : ∀ r ms, rooms s !! r = Some ms → ms ≠ ∅;
  inv_members : ∀ p r,
    p ∈ rooms s !!! r ↔ p ∈ clients s ∧ r ∈ rooms_of s p;
  inv_open : ∀ p, p ∈ clients s →
    is_Some (heap s !! p) ∧ queue_closed s p = false
}.

(** A Client after one non-blocking send attempt on its queue. *)
Definition push (payload : Payload) c : @Client Payload :=
  match chan_send (send c) payload with
  | Sent ch => set_send c ch
  | _ => c
  end.

(** The index updates of the two loops. *)
Definition leave_room (p : ptr) (rm : gmap string (gset ptr)) (room : string)
    : gmap string (gset ptr) :=
  match rm !! room with
  | Some members => leave p room members rm
  | None => rm
  end.

Definition join_rooms (p : ptr) (rs : list string)
    (rm : gmap string (gset ptr)) : gmap string (gset ptr) :=
  foldl (λ rm room, join p room rm) rm rs.

Definition leave_rooms (p : ptr) (rs : list string)
    (rm : gmap string (gset ptr)) : gmap string (gset ptr) :=
  foldl (leave_room p) rm rs.

(** *** The invariants of the system *)

Implicit Types (σ : @System Payload).

(** What holds of the hub in every state of the system, also while the
    coordinator waits inside a handler. *)
Record SysInv σ : Prop := {
  sys_nonempty : ∀ r ms, rooms (hub σ) !! r = Some ms → ms ≠ ∅;
  sys_member_rooms : ∀ p r,
    p ∈ rooms (hub σ) !!! r → r ∈ rooms_of (hub σ) p;
  sys_open : ∀ p, p ∈ clients (hub σ) →
    is_Some (heap (hub σ) !! p) ∧ queue_closed (hub σ) p = false;
  sys_running : coordinator σ = Running → Inv (hub σ);
  sys_pumps : ∀ p, p ∈ reading σ ∪ leaving σ → is_Some (heap (hub σ) !! p);
  sys_cap : ∀ p c, heap (hub σ) !! p = Some c → 0 < cap (send c)
}.


End vocabulary.

(** ** The claims of the specification that the code does not meet,
       as the specification words them *)

Section spec_wording.

Context {Payload : Type}.
Variable json_Marshal : WSMessage → option Payload.
Variable json_Unmarshal : Payload → option WSMessage.
Implicit Types (s : @State Payload).

(** "A room entry exists in the index if and only if its member set is
    non-empty or it currently holds cached match state." *)
Definition entry_iff_members_or_cache s : Prop :=
  ∀ r, is_Some (rooms s !! r) ↔
       (rooms s !!! r ≠ ∅ ∨ is_Some (matches s !! r)).


(** "A room's rate limiter state persists for the lifetime of the room
    entry only." *)
Definition limiter_only_with_entry s : Prop :=
  ∀ r, is_Some (roomLimiters s !! r) → is_Some (rooms s !! r).



End spec_wording.

(** ** Runs of the system on concrete connections *)

Module scenario.

(** The payload is the message itself: a codec that never fails. *)
Definition enc (m : WSMessage) : option WSMessage := Some m.
Definition dec (frame : WSMessage) : option WSMessage := Some frame.

Definition alice : User := {| User_ID := "u1"; Username := "alice" |}.
Definition bob : User := {| User_ID := "u2"; Username := "bob" |}.
Definition carol : User := {| User_ID := "u3"; Username := "carol" |}.
Definition dave : User := {| User_ID := "u4"; Username := "dave" |}.

(** A Client as the accept path makes it: an empty open queue of
    capacity [n], the rooms [rs], a limiter of [k] frames per second. *)
Definition new_client (u : User) (rs : list string) (n : nat) (k : Z)
    : @Client WSMessage :=
  {| user := u;
     c_rooms := list_to_map ((λ r, (r, true)) <$> rs);
     send := {| buf := []; cap := n; closed := false |};
     limiter := rate.NewLimiter (rate.PerSecond k) k |}.

(** The same Client with payloads in its queue. *)
Definition queued (l : list WSMessage) (c : @Client WSMessage)
    : @Client WSMessage :=
  set_send c {| buf := l; cap := cap (send c); closed := false |}.

(** The result of an operation. *)
Definition the {A} (d : A) (o : outcome A) : A :=
  match o with
  | Ok a => a
  | _ => d
  end.

(** Milliseconds after the start of the run, in nanoseconds. *)
Definition ms (n : Z) : Z := (1000 * rate.Second + n * 1000000)%Z.

Definition chat (room content : string) : WSMessage :=
  {| WS_Type := MessageTypeChat; ChatRoom := room; Content := content;
     WS_User := None; WS_Match := None; WS_Event := None;
     Timestamp := zero_time; Error := zero_string; Data := zero_string |}.

Definition m1_live : Match :=
  {| ID := "m1"; Status := "LIVE"; HomeScore := 1; AwayScore := 0;
     MatchData := zero_string |}.

(** *** Runs of the system *)

(** The accept path hands a new connection to the coordinator. *)
Definition connect (p : ptr) (c : Client) (now : Z) (σ : System)
    : @System WSMessage :=
  {| hub := (handleRegister enc p now (set_heap (<[p := c]>) (hub σ))).1;
     coordinator :=
       Run_after (handleRegister enc p now (set_heap (<[p := c]>) (hub σ))).2;
     reading := {[p]} ∪ reading σ; leaving := leaving σ |}.

(** The read pump of a connection leaves its loop. *)
Definition hang_up (p : ptr) (σ : System) : @System WSMessage :=
  {| hub := hub σ; coordinator := coordinator σ;
     reading := reading σ ∖ {[p]}; leaving := {[p]} ∪ leaving σ |}.

(** The coordinator takes a connection from h.unregister. *)
Definition disconnect (p : ptr) (now : Z) (σ : System) : @System WSMessage :=
  {| hub := (handleUnregister enc p now (hub σ)).1;
     coordinator := Run_after (handleUnregister enc p now (hub σ)).2;
     reading := reading σ; leaving := leaving σ |}.

(** The coordinator takes a message from h.broadcast. *)
Definition cast (message : WSMessage) (now : Z) (σ : System)
    : @System WSMessage :=
  with_hub (the (hub σ) (handleBroadcast enc message now (hub σ))) σ.

(** The read pump of a connection handles a frame. *)
Definition read (p : ptr) (frame : WSMessage) (now : Z) (σ : System)
    : @System WSMessage :=
  with_hub (the (hub σ, None) (readPump_frame enc dec p frame now (hub σ))).1 σ.

(** Run P: the poller caches match "m1"; the coordinator handles the
    update event. No connection has been registered. *)
Definition polled : @System WSMessage :=
  with_hub (fetchMatchUpdates (Some [m1_live]) (ms 1) NewHub).1 start.
Definition announced : @System WSMessage :=
  cast (updateMsg m1_live (ms 1)) (ms 2) polled.

(** Run A: alice connects with the room "m1". *)
Definition alice_in : @System WSMessage :=
  connect 1 (new_client alice ["m1"] 64 100) (ms 0) start.


(** Run C: carol and dave connect without a room, with queues of one
    and of two payloads and limiters of one frame per second; each
    sends a frame for "m1", which takes the token of the limiter and is
    answered by an access-denied error. Then the read pump of carol
    leaves its loop and the coordinator deregisters her. *)
Definition carol_in : @System WSMessage :=
  connect 3 (new_client carol [] 1 1) (ms 0) start.
Definition dave_in : @System WSMessage :=
  connect 4 (new_client dave [] 2 1) (ms 1) carol_in.
Definition refused_once : @System WSMessage :=
  read 4 (chat "m1" "a") (ms 2) (read 3 (chat "m1" "a") (ms 2) dave_in).
Definition carol_out : @System WSMessage :=
  disconnect 3 (ms 5) (hang_up 3 refused_once).

(** *** Hubs with members *)

(** A hub that holds the connection as a registered member of each of
    its rooms: the index as a handleRegister that has visited every
    room leaves it. handleRegister gets that far only when json.Marshal
    encodes none of the join events; these hubs are the inputs of
    statements about single functions of the hub. *)
Definition seat (p : ptr) (c : Client) (s : State) : @State WSMessage :=
  set_heap (<[p := c]>)
    (set_rooms (join_rooms p (room_keys c))
       (set_clients (λ cs, {[p]} ∪ cs) s)).

(** [n] messages for [room], handled one millisecond apart from [t]. *)
Fixpoint broadcasts (room : string) (u : User) (n : nat) (t : Z) (s : State)
    : @State WSMessage :=
  match n with
  | O => s
  | S n' =>
      let s' := the s (handleBroadcast enc
                         (stamp u (ms t) (chat room "x")) (ms t) s) in
      broadcasts room u n' (t + 1) s'
  end.

(** Hub A: alice is a member of "m1"; the poller caches match "m1"; ten
    messages go through the room; handleUnregister is run on alice. *)
Definition a1 : State := seat 1 (new_client alice ["m1"] 64 100) NewHub.
Definition a2 : State := (fetchMatchUpdates (Some [m1_live]) (ms 1) a1).1.
Definition a3 : State := broadcasts "m1" alice 10 10 a2.
Definition a4 : State := (handleUnregister enc 1 (ms 30) a3).1.

(** Hub B: alice is a member of "m1", ten messages go through the room
    within ten milliseconds, then the read pump of alice handles a chat
    frame. *)
Definition b1 : State := broadcasts "m1" alice 10 10 a1.
Definition hello : WSMessage := chat "m1" "hello".
Definition hello_stamped : WSMessage := stamp alice (ms 21) hello.
Definition b2 : State :=
  (the (b1, None) (readPump_frame enc dec 1 hello (ms 21) b1)).1.

(** The store holds one message of "m1". *)
Definition recent (room : string) : option (list Message) :=
  if bool_decide (room = "m1")
  then Some [{| Msg_Content := "earlier"; Msg_User := Some bob; CreatedAt := ms 0 |}]
  else Some [].

(** Hub D: alice, with a queue of two payloads that is full, is a
    member of "m1"; bob, with a queue of four that holds two, is a
    member of "m1" and "m2". *)
Definition d2 : State :=
  seat 2 (queued [chat "m1" "one"; chat "m1" "two"]
            (new_client bob ["m1"; "m2"] 4 1))
    (seat 1 (queued [chat "m1" "one"; chat "m1" "two"]
               (new_client alice ["m1"] 2 1))
       NewHub).

(** The Client struct at an address. *)
Definition client_at (s : @State WSMessage) (p : ptr) : Client :=
  default (new_client alice [] 0 1) (heap s !! p).

(** Thirty instants, a tenth of a second apart. *)
Definition tenths : list Z := (λ i : nat, ms (100 * Z.of_nat i)) <$> seq 0 30.

End scenario.

(** The decisions of a room's limiter on messages at the given times. *)
Fixpoint room_admissions {Payload : Type} (room : string) (times : list Z)
    (s : @State Payload) : list bool :=
  match times with
  | [] => []
  | now :: times' =>
      let '(ok, s') := checkRateLimit room now s in
      ok :: room_admissions room times' s'
  end.

(** The decisions of a limiter on its own. *)
Fixpoint limiter_admissions (times : list Z) (lim : rate.Limiter) : list bool :=
  match times with
  | [] => []
  | now :: times' =>
      let '(ok, lim') := rate.Allow now lim in
      ok :: limiter_admissions times' lim'
  end.

Definition admitted (decisions : list bool) : nat :=
  length (filter (λ b : bool, b) decisions).

(** ** The rest of hub.go: persistMessage and writePump *)

(** models.Message, the columns that persistMessage fills in; the
    identifier is left to the store. *)
Record MessageRow := mkMessageRow {
  ChatRoomID : string;
  UserID : string;
  Row_Content : string;
  MessageType : string;
  Row_CreatedAt : Z
}.

(** persistMessage, up to the call of store.CreateMessage: the result is
    the row handed to the store. [message.User.ID] dereferences the
    sender; an error of the store is logged and has no other effect. *)
Definition persistMessage (message : WSMessage) : outcome MessageRow :=
  match WS_User message with
  | None => Panic
  | Some u =>
      Ok {| ChatRoomID := ChatRoom message;
            UserID := User_ID u;
            Row_Content := Content message;
            MessageType := MessageTypeChat;
            Row_CreatedAt := Timestamp message |}
  end.

(** What the write pump hands to the connection. The parts of a text
    message are written one after the other, with a newline between
    them. *)
Inductive Written (Payload : Type) :=
  | TextMessage (parts : list Payload)
  | CloseMessage
  | PingMessage.
Arguments TextMessage {Payload} parts.
Arguments CloseMessage {Payload}.
Arguments PingMessage {Payload}.

(** The queue case of the select in writePump, when it can proceed:
    [None] is the pump waiting on an open, empty queue. The result
    carries what was written and whether the loop goes on. A closed,
    drained queue gives the close message and ends the pump; otherwise
    the next payload is received and, unless NextWriter fails, written
    together with all that is queued behind it; a failing w.Close() ends
    the pump. *)
Definition writePump_recv {Payload : Type} (NextWriter_ok Close_ok : bool)
    (p : ptr) (s : @State Payload)
    : option (@State Payload * list (Written Payload) * bool) :=
  match heap s !! p with
  | None => None
  | Some c =>
      match buf (send c) with
      | [] =>
          if closed (send c) then Some (s, [CloseMessage], false) else None
      | message :: queued =>
          if NextWriter_ok then
            Some (set_heap (<[p := set_send c {| buf := []; cap := cap (send c);
                                                 closed := closed (send c) |}]>) s,
                  [TextMessage (message :: queued)], Close_ok)
          else
            Some (set_heap (<[p := set_send c {| buf := queued;
                                                 cap := cap (send c);
                                                 closed := closed (send c) |}]>) s,
                  [], false)
      end
  end.

(** The ticker case of the select: a ping; a failing write ends the pump. *)
Definition writePump_tick {Payload : Type} (WriteMessage_ok : bool)
    : list (Written Payload) * bool :=
  ([PingMessage], WriteMessage_ok).

(** The counters of the metrics agree. *)
Definition same_counters {Payload : Type} (s s' : @State Payload) : Prop :=
  ConnectedClients s' = ConnectedClients s ∧ MessagesSent s' = MessagesSent s.

(** The free slots of the queue at [p]. *)
Definition slots {Payload : Type} (s : @State Payload) (p : ptr) : nat :=
  match heap s !! p with
  | Some c => cap (send c) - length (buf (send c))
  | None => 0
  end.

(** What a task that only sends on the queue of [p] may change. *)
Definition only_appends {Payload : Type} (p : ptr) (s s' : @State Payload)
    : Prop :=
  same_hub s s' ∧ same_counters s s' ∧ spawned s' = spawned s ∧
  (∀ q, q ≠ p → heap s' !! q = heap s !! q) ∧
  queue_closed s' p = queue_closed s p ∧
  ∃ l, queue s' p = queue s p ++ l.

(** Every cached match is filed under its own identifier. *)
Definition cache_keyed_by_id {Payload : Type} (s : @State Payload) : Prop :=
  ∀ k m, matches s !! k = Some m → ID m = k.

(** Two hubs that differ in the index only. *)
Definition same_but_index {Payload : Type} (s s' : @State Payload) : Prop :=
  matches s' = matches s ∧ roomLimiters s' = roomLimiters s ∧
  heap s' = heap s ∧ spawned s' = spawned s ∧ same_counters s s'.

(** ** Facts *)

Section hub_facts.

Context {Payload : Type}.
Variable json_Marshal : WSMessage → option Payload.
Variable json_Unmarshal : Payload → option WSMessage.
Implicit Types (s : @State Payload) (c : @Client Payload).
Implicit Types (σ : @System Payload).
Implicit Types (p q : ptr) (r room : string).

Lemma bind_Ok {A B} (o : outcome A) (f : A → outcome B) b :
  o ≫= f = Ok b → ∃ a, o = Ok a ∧ f a = Ok b.
Proof. destruct o; simpl; [eauto | done | done]. Qed.

Lemma deref_Ok p s c : deref p s = Ok c → heap s !! p = Some c.
Proof. unfold deref. by destruct (heap s !! p); intros [= ->]. Qed.

Lemma deref_Some p s c : heap s !! p = Some c → deref p s = Ok c.
Proof. unfold deref. by intros ->. Qed.

(** *** Keys of Client.rooms *)

Lemma elem_of_room_keys c r : r ∈ room_keys c ↔ r ∈ dom (c_rooms c).
Proof.
  unfold room_keys. rewrite elem_of_dom, list_elem_of_fmap. split.
  - intros [[r' b] [-> Hin]]. apply elem_of_map_to_list in Hin. eauto.
  - intros [b Hb]. exists (r, b). split; [done|].
    by apply elem_of_map_to_list.
Qed.

(** *** heap_ext *)

Lemma heap_ext_refl (h : gmap ptr (@Client Payload)) : heap_ext h h.
Proof. by intros q. Qed.

Lemma heap_ext_trans (h1 h2 h3 : gmap ptr (@Client Payload)) :
  heap_ext h1 h2 → heap_ext h2 h3 → heap_ext h1 h3.
Proof. intros H12 H23 q. by rewrite H23, H12. Qed.

Lemma heap_ext_insert (h : gmap ptr (@Client Payload)) p c c' :
  h !! p = Some c → static c' = static c → heap_ext h (<[p := c']> h).
Proof.
  intros Hp Hst q. destruct (decide (p = q)) as [<-|Hne].
  - rewrite lookup_insert_eq, Hp. simpl. by rewrite Hst.
  - by rewrite lookup_insert_ne.
Qed.

Lemma heap_ext_rooms_of s s' p :
  heap_ext (heap s) (heap s') → rooms_of s' p = rooms_of s p.
Proof.
  intros H. specialize (H p). unfold rooms_of, static in *.
  destruct (heap s' !! p), (heap s !! p); simplify_eq/=; congruence.
Qed.

Lemma heap_ext_closed s s' p :
  heap_ext (heap s) (heap s') → queue_closed s' p = queue_closed s p.
Proof.
  intros H. specialize (H p). unfold queue_closed, static in *.
  destruct (heap s' !! p), (heap s !! p); simplify_eq/=; congruence.
Qed.

Lemma heap_ext_is_Some s s' p :
  heap_ext (heap s) (heap s') → is_Some (heap s' !! p) ↔ is_Some (heap s !! p).
Proof.
  intros H. specialize (H p). rewrite <-!(fmap_is_Some static).
  by rewrite H.
Qed.

Lemma Inv_ext s s' :
  same_index s s' → heap_ext (heap s) (heap s') → Inv s → Inv s'.
Proof.
  intros [Hc Hr] Hh [I1 I2 I3]. split.
  - rewrite Hr. exact I1.
  - intros p r. rewrite Hr, Hc, (heap_ext_rooms_of s s') by done. apply I2.
  - intros p. rewrite Hc, (heap_ext_closed s s'), (heap_ext_is_Some s s') by done.
    apply I3.
Qed.

(** *** Channels *)

Lemma chan_send_open (ch : @Chan Payload) x :
  closed ch = false →
  chan_send ch x =
    if bool_decide (length (buf ch) < cap ch)
    then Sent {| buf := buf ch ++ [x]; cap := cap ch; closed := false |}
    else Full.
Proof. unfold chan_send. by intros ->. Qed.

Lemma chan_send_Sent (ch ch' : @Chan Payload) x :
  chan_send ch x = Sent ch' →
  closed ch = false ∧ length (buf ch) < cap ch ∧
  ch' = {| buf := buf ch ++ [x]; cap := cap ch; closed := false |}.
Proof.
  unfold chan_send. destruct (closed ch); [done|].
  case_bool_decide; [|done]. by intros [= <-].
Qed.

Lemma static_push payload c : static (push payload c) = static c.
Proof.
  unfold push. destruct (chan_send (send c) payload) as [ch| |] eqn:E; [|done..].
  apply chan_send_Sent in E as (Hc & _ & ->). unfold static. simpl.
  by rewrite Hc.
Qed.

(** *** The fan-out loop changes queues only *)

Lemma deliver_frame payload p s s' :
  deliver payload p s = Ok s' →
  same_hub s s' ∧ heap_ext (heap s) (heap s').
Proof.
  unfold deliver. intros H. apply bind_Ok in H as (c & Hc & H).
  apply deref_Ok in Hc.
  destruct (chan_send (send c) payload) as [ch| |] eqn:E; simplify_eq.
  - split; [done|]. simpl. apply heap_ext_insert with c; [done|].
    pose proof (static_push payload c) as Hs. unfold push in Hs.
    by rewrite E in Hs.
  - split; [done|]. apply heap_ext_refl.
Qed.

Lemma same_hub_trans s1 s2 s3 : same_hub s1 s2 → same_hub s2 s3 → same_hub s1 s3.
Proof.
  intros [[? ?] [? ?]] [[? ?] [? ?]]. repeat split; congruence.
Qed.

Lemma fanout_frame payload members s s' :
  fanout payload members s = Ok s' →
  same_hub s s' ∧ heap_ext (heap s) (heap s').
Proof.
  revert s. induction members as [|p members IH]; intros s H; simpl in H.
  - simplify_eq. split; [done | apply heap_ext_refl].
  - apply bind_Ok in H as (s1 & H1 & H2).
    apply deliver_frame in H1 as [Ha Hb]. apply IH in H2 as [Hc Hd].
    split; [by eapply same_hub_trans | by eapply heap_ext_trans].
Qed.

Lemma broadcastToRoom_frame room message s s' :
  broadcastToRoom json_Marshal room message s = Ok s' →
  same_hub s s' ∧ heap_ext (heap s) (heap s').
Proof.
  unfold broadcastToRoom. destruct (json_Marshal message).
  - apply fanout_frame.
  - intros [= <-]. split; [done | apply heap_ext_refl].
Qed.

(** *** What the fan-out loop does to each queue *)

Lemma deliver_Ok payload p s c :
  heap s !! p = Some c → closed (send c) = false →
  deliver payload p s =
    Ok (if queue_full s p then go (GoUnregister p) s
        else set_heap (<[p := push payload c]>) s).
Proof.
  intros Hp Hc. unfold deliver, queue_full, push.
  rewrite (deref_Some _ _ _ Hp), Hp. simpl.
  rewrite chan_send_open by done.
  repeat case_bool_decide; try lia; done.
Qed.

Lemma filter_full_ext (s1 s : @State Payload) (members : list ptr) :
  (∀ q, q ∈ members → queue_full s1 q = queue_full s q) →
  filter (λ q, queue_full s1 q) members = filter (λ q, queue_full s q) members.
Proof.
  induction members as [|q members IH]; intros H; [done|].
  rewrite !filter_cons, H by (apply elem_of_cons; auto).
  rewrite IH; [done|]. intros q' Hq'. apply H, elem_of_cons; auto.
Qed.

Lemma push_full s p c payload :
  heap s !! p = Some c → queue_full s p = true → push payload c = c.
Proof.
  unfold queue_full, push, chan_send. intros -> Hf.
  apply bool_decide_eq_true in Hf.
  destruct (closed (send c)); [done|]. case_bool_decide; [lia | done].
Qed.

Lemma fanout_spec payload members s :
  NoDup members →
  (∀ q, q ∈ members → is_Some (heap s !! q) ∧ queue_closed s q = false) →
  ∃ s', fanout payload members s = Ok s' ∧ same_hub s s' ∧
    (∀ q, heap s' !! q =
          if decide (q ∈ members) then push payload <$> heap s !! q
          else heap s !! q) ∧
    spawned s' =
      spawned s ++ (GoUnregister <$> filter (λ q, queue_full s q) members).
Proof.
  revert s. induction members as [|p members IH]; intros s Hnd Hall.
  - exists s. simpl. rewrite app_nil_r. repeat split; try done.
  - apply NoDup_cons in Hnd as [Hnotin Hnd].
    destruct (Hall p) as [[c Hc] Hopen]; [apply elem_of_cons; auto|].
    unfold queue_closed in Hopen. rewrite Hc in Hopen.
    simpl. rewrite (deliver_Ok payload p s c) by done. simpl.
    set (s1 := if queue_full s p then _ else _).
    assert (Hother : ∀ q, q ≠ p → heap s1 !! q = heap s !! q).
    { intros q Hq. subst s1. destruct (queue_full s p); simpl; [done|].
      by rewrite lookup_insert_ne. }
    assert (Hfull : ∀ q, q ∈ members → queue_full s1 q = queue_full s q).
    { intros q Hq. unfold queue_full. rewrite Hother; [done|].
      by intros ->. }
    destruct (IH s1 Hnd) as (s' & Hrun & Hhub & Hheap & Hsp).
    { intros q Hq. assert (q ≠ p) by (intros ->; done).
      unfold queue_closed. rewrite Hother by done. apply Hall.
      apply elem_of_cons; auto. }
    exists s'. split; [done|]. split; [|split].
    + eapply same_hub_trans; [|exact Hhub]. subst s1.
      by destruct (queue_full s p).
    + intros q. rewrite Hheap. destruct (decide (q = p)) as [->|Hne].
      * rewrite decide_False by done.
        rewrite decide_True by (apply elem_of_cons; auto).
        subst s1. rewrite Hc. simpl.
        destruct (queue_full s p) eqn:Hf; simpl.
        -- rewrite Hc. f_equal. symmetry. by eapply push_full.
        -- by rewrite lookup_insert_eq.
      * rewrite Hother by done.
        destruct (decide (q ∈ members)).
        -- by rewrite decide_True by (apply elem_of_cons; auto).
        -- rewrite decide_False; [done|].
           intros [?|?]%elem_of_cons; done.
    + rewrite Hsp, filter_cons, (filter_full_ext s1 s) by done. subst s1.
      destruct (queue_full s p) eqn:Hf; simpl.
      * by rewrite <-app_assoc.
      * done.
Qed.

(** *** The index updates *)

Lemma rooms_lookup_total (rm : gmap string (gset ptr)) r :
  rm !!! r = default ∅ (rm !! r).
Proof. by rewrite lookup_total_alt. Qed.

Lemma join_lookup p room (rm : gmap string (gset ptr)) r :
  join p room rm !! r =
    if decide (r = room) then Some ({[p]} ∪ rm !!! room) else rm !! r.
Proof.
  unfold join. destruct (decide (r = room)) as [->|Hne].
  - rewrite lookup_insert_eq. f_equal. f_equal.
    destruct (rm !! room) eqn:E; [done|].
    rewrite !rooms_lookup_total, lookup_insert_eq, E. done.
  - rewrite lookup_insert_ne by done.
    destruct (rm !! room); [done|]. by rewrite lookup_insert_ne.
Qed.

Lemma join_lookup_total p room (rm : gmap string (gset ptr)) r :
  join p room rm !!! r =
    if decide (r = room) then {[p]} ∪ rm !!! r else rm !!! r.
Proof.
  rewrite (rooms_lookup_total (join p room rm)), join_lookup.
  destruct (decide (r = room)) as [->|]; [done|].
  by rewrite rooms_lookup_total.
Qed.

Lemma join_rooms_lookup_total p rs (rm : gmap string (gset ptr)) r :
  join_rooms p rs rm !!! r =
    if decide (r ∈ rs) then {[p]} ∪ rm !!! r else rm !!! r.
Proof.
  unfold join_rooms. revert rm. induction rs as [|room rs IH]; intros rm.
  - reflexivity.
  - simpl. rewrite IH, join_lookup_total.
    destruct (decide (r = room)) as [->|Hne].
    + rewrite (decide_True (P := room ∈ room :: rs)) by (apply elem_of_cons; auto).
      destruct (decide (room ∈ rs)); [|done].
      apply set_eq. intros x. rewrite !elem_of_union. tauto.
    + destruct (decide (r ∈ rs)).
      * by rewrite decide_True by (apply elem_of_cons; auto).
      * rewrite decide_False; [done|]. intros [?|?]%elem_of_cons; done.
Qed.

Lemma join_nonempty p room rm :
  nonempty_entries rm → nonempty_entries (join p room rm).
Proof.
  intros H r ms. rewrite join_lookup. destruct (decide (r = room)).
  - intros [= <-]. intros Hempty.
    assert (p ∈ ({[p]} ∪ rm !!! room : gset ptr)) as Hin
      by (apply elem_of_union_l, elem_of_singleton; done).
    rewrite Hempty in Hin. by apply not_elem_of_empty in Hin.
  - apply H.
Qed.

Lemma join_rooms_nonempty p rs rm :
  nonempty_entries rm → nonempty_entries (join_rooms p rs rm).
Proof.
  unfold join_rooms. revert rm. induction rs as [|room rs IH]; intros rm H.
  - done.
  - simpl. by apply IH, join_nonempty.
Qed.

Lemma leave_room_lookup p (rm : gmap string (gset ptr)) room r :
  leave_room p rm room !! r =
    if decide (r = room)
    then ms ← rm !! room;
         if decide (ms ∖ {[p]} = ∅) then None else Some (ms ∖ {[p]})
    else rm !! r.
Proof.
  unfold leave_room, leave. destruct (rm !! room) as [ms|] eqn:E; simpl.
  - case_bool_decide as Hsz.
    + apply size_empty_inv in Hsz. apply leibniz_equiv in Hsz.
      destruct (decide (r = room)) as [->|].
      * rewrite lookup_delete_eq. by rewrite decide_True.
      * by rewrite lookup_delete_ne.
    + assert (ms ∖ {[p]} ≠ ∅) by (intros Heq; apply Hsz; by rewrite Heq).
      destruct (decide (r = room)) as [->|].
      * rewrite lookup_insert_eq. by rewrite decide_False.
      * by rewrite lookup_insert_ne.
  - destruct (decide (r = room)) as [->|]; done.
Qed.

Lemma leave_room_lookup_total p (rm : gmap string (gset ptr)) room r :
  leave_room p rm room !!! r =
    if decide (r = room) then rm !!! r ∖ {[p]} else rm !!! r.
Proof.
  rewrite (rooms_lookup_total (leave_room p rm room)), leave_room_lookup.
  destruct (decide (r = room)) as [->|]; [|by rewrite rooms_lookup_total].
  rewrite rooms_lookup_total. destruct (rm !! room) as [ms|]; simpl.
  - destruct (decide (ms ∖ {[p]} = ∅)) as [->|]; done.
  - apply set_eq. intros x. rewrite elem_of_difference.
    split; [intros []%not_elem_of_empty | intros [[]%not_elem_of_empty _]].
Qed.

Lemma leave_rooms_lookup_total p rs (rm : gmap string (gset ptr)) r :
  leave_rooms p rs rm !!! r =
    if decide (r ∈ rs) then rm !!! r ∖ {[p]} else rm !!! r.
Proof.
  unfold leave_rooms. revert rm. induction rs as [|room rs IH]; intros rm.
  - reflexivity.
  - simpl. rewrite IH, leave_room_lookup_total.
    destruct (decide (r = room)) as [->|Hne].
    + rewrite (decide_True (P := room ∈ room :: rs)) by (apply elem_of_cons; auto).
      destruct (decide (room ∈ rs)); [|done].
      apply set_eq. intros x. rewrite !elem_of_difference. tauto.
    + destruct (decide (r ∈ rs)).
      * by rewrite decide_True by (apply elem_of_cons; auto).
      * rewrite decide_False; [done|]. intros [?|?]%elem_of_cons; done.
Qed.

Lemma leave_room_nonempty p rm room :
  nonempty_entries rm → nonempty_entries (leave_room p rm room).
Proof.
  intros H r ms. rewrite leave_room_lookup. destruct (decide (r = room)).
  - destruct (rm !! room) as [ms'|]; simpl; [|done].
    destruct (decide (ms' ∖ {[p]} = ∅)); [done|]. by intros [= <-].
  - apply H.
Qed.

Lemma leave_rooms_nonempty p rs rm :
  nonempty_entries rm → nonempty_entries (leave_rooms p rs rm).
Proof.
  unfold leave_rooms. revert rm. induction rs as [|room rs IH]; intros rm H.
  - done.
  - simpl. by apply IH, leave_room_nonempty.
Qed.

(** *** The two loops of the coordinator *)

Lemma leave_rooms_cons p room rs (rm : gmap string (gset ptr)) :
  leave_rooms p (room :: rs) rm = leave_rooms p rs (leave_room p rm room).
Proof. done. Qed.

Lemma same_but_index_refl s : same_but_index s s.
Proof. by repeat split. Qed.

Lemma same_but_index_set_rooms f s : same_but_index s (set_rooms f s).
Proof. by repeat split. Qed.

Lemma same_but_index_trans s1 s2 s3 :
  same_but_index s1 s2 → same_but_index s2 s3 → same_but_index s1 s3.
Proof.
  intros (? & ? & ? & ? & ? & ?) (? & ? & ? & ? & ? & ?).
  repeat split; congruence.
Qed.

(** The loop of handleRegister: it visits the rooms in turn, puts the
    connection in the member set of each, and stops for ever at the
    first whose join event marshals. No queue is touched. *)
Lemma register_rooms_run p u now rs s :
  ∃ visited rest,
    rs = visited ++ rest ∧
    clients (register_rooms json_Marshal p u now rs s).1 = clients s ∧
    rooms (register_rooms json_Marshal p u now rs s).1
      = join_rooms p visited (rooms s) ∧
    same_but_index s (register_rooms json_Marshal p u now rs s).1 ∧
    match (register_rooms json_Marshal p u now rs s).2 with
    | Ok _ =>
        rest = [] ∧
        ∀ room, room ∈ rs → json_Marshal (joinMsg room u now) = None
    | Blocked =>
        ∃ quiet room,
          visited = quiet ++ [room] ∧
          is_Some (json_Marshal (joinMsg room u now)) ∧
          ∀ r, r ∈ quiet → json_Marshal (joinMsg r u now) = None
    | Panic => False
    end.
Proof.
  revert s. induction rs as [|room rs IH]; intros s.
  - exists [], []. simpl.
    split; [done|]. split; [done|]. split; [done|].
    split; [apply same_but_index_refl|]. split; [done|].
    intros room Hroom. by apply elem_of_nil in Hroom.
  - simpl. unfold broadcastToRoom_locked.
    destruct (json_Marshal (joinMsg room u now)) as [payload|] eqn:Hm.
    + exists [room], rs. simpl.
      split; [done|]. split; [done|]. split; [done|].
      split; [apply same_but_index_set_rooms|].
      exists [], room. split; [done|]. split; [eauto|].
      intros r Hr. by apply elem_of_nil in Hr.
    + destruct (IH (set_rooms (join p room) s))
        as (visited & rest & Hsplit & Hc & Hr & Hsame & Hend).
      exists (room :: visited), rest.
      split; [simpl; by rewrite Hsplit|]. split; [exact Hc|].
      split; [exact Hr|].
      split.
      { eapply same_but_index_trans; [|exact Hsame].
        apply same_but_index_set_rooms. }
      destruct (register_rooms _ _ _ _ _ _).2 as [[]| |]; [| done |].
      * destruct Hend as [-> Hnone]. split; [done|].
        intros r [->|Hr']%elem_of_cons; [done | by apply Hnone].
      * destruct Hend as (quiet & r & -> & Hsome & Hnone).
        exists (room :: quiet), r. split; [done|]. split; [done|].
        intros r' [->|Hr']%elem_of_cons; [done | by apply Hnone].
Qed.

(** The loop of handleUnregister: it visits the rooms in turn, takes the
    connection out of the member set of each room that has an entry,
    and stops for ever at the first of these whose leave event
    marshals. No queue is touched. *)
Lemma unregister_rooms_run p u now rs s :
  ∃ visited rest,
    rs = visited ++ rest ∧
    clients (unregister_rooms json_Marshal p u now rs s).1 = clients s ∧
    rooms (unregister_rooms json_Marshal p u now rs s).1
      = leave_rooms p visited (rooms s) ∧
    same_but_index s (unregister_rooms json_Marshal p u now rs s).1 ∧
    match (unregister_rooms json_Marshal p u now rs s).2 with
    | Ok _ => rest = []
    | Blocked =>
        ∃ quiet room,
          visited = quiet ++ [room] ∧
          is_Some (json_Marshal (leaveMsg room u now)) ∧
          is_Some (leave_rooms p quiet (rooms s) !! room)
    | Panic => False
    end.
Proof.
  revert s. induction rs as [|room rs IH]; intros s.
  - exists [], []. simpl.
    split; [done|]. split; [done|]. split; [done|].
    split; [apply same_but_index_refl | done].
  - simpl. destruct (rooms s !! room) as [members|] eqn:Hentry.
    + unfold broadcastToRoom_locked.
      assert (leave p room members (rooms s) = leave_room p (rooms s) room)
        as Hleave by (unfold leave_room; by rewrite Hentry).
      destruct (json_Marshal (leaveMsg room u now)) as [payload|] eqn:Hm.
      * exists [room], rs. simpl.
        split; [done|]. split; [done|]. split; [done|].
        split; [apply same_but_index_set_rooms|].
        exists [], room. split; [done|]. split; [eauto|]. simpl. eauto.
      * destruct (IH (set_rooms (leave p room members) s))
          as (visited & rest & Hsplit & Hc & Hr & Hsame & Hend).
        exists (room :: visited), rest.
        split; [simpl; by rewrite Hsplit|]. split; [exact Hc|].
        split; [rewrite Hr; simpl; by rewrite Hleave|].
        split.
        { eapply same_but_index_trans; [|exact Hsame].
          apply same_but_index_set_rooms. }
        destruct (unregister_rooms _ _ _ _ _ _).2 as [[]| |]; [done| done |].
        destruct Hend as (quiet & r & -> & Hsome & Hin).
        exists (room :: quiet), r. split; [done|]. split; [done|].
        simpl in Hin. rewrite Hleave in Hin. exact Hin.
    + destruct (IH s) as (visited & rest & Hsplit & Hc & Hr & Hsame & Hend).
      assert (leave_room p (rooms s) room = rooms s) as Hskip
        by (unfold leave_room; by rewrite Hentry).
      exists (room :: visited), rest.
      split; [simpl; by rewrite Hsplit|]. split; [exact Hc|].
      split; [rewrite Hr, leave_rooms_cons; by rewrite Hskip|].
      split; [exact Hsame|].
      destruct (unregister_rooms _ _ _ _ _ _).2 as [[]| |]; [done| done |].
      destruct Hend as (quiet & r & -> & Hsome & Hin).
      exists (room :: quiet), r. split; [done|]. split; [done|].
      rewrite leave_rooms_cons. by rewrite Hskip.
Qed.

(** *** What the two handlers do *)

(** handleRegister, for a Client that exists: the connection is
    registered and its initial-data task started whatever follows; the
    handler returns, with the gauge incremented, when no join event
    marshals, and waits for h.mu for ever at the first that does. No
    queue is touched. *)
Lemma handleRegister_run p c now s :
  heap s !! p = Some c →
  ∃ visited rest,
    room_keys c = visited ++ rest ∧
    clients (handleRegister json_Marshal p now s).1 = {[p]} ∪ clients s ∧
    rooms (handleRegister json_Marshal p now s).1
      = join_rooms p visited (rooms s) ∧
    matches (handleRegister json_Marshal p now s).1 = matches s ∧
    roomLimiters (handleRegister json_Marshal p now s).1 = roomLimiters s ∧
    heap (handleRegister json_Marshal p now s).1 = heap s ∧
    spawned (handleRegister json_Marshal p now s).1
      = spawned s ++ [GoSendInitialData p] ∧
    MessagesSent (handleRegister json_Marshal p now s).1 = MessagesSent s ∧
    match (handleRegister json_Marshal p now s).2 with
    | Ok _ =>
        rest = [] ∧
        ConnectedClients (handleRegister json_Marshal p now s).1
          = (ConnectedClients s + 1)%Z ∧
        ∀ room, room ∈ room_keys c →
                json_Marshal (joinMsg room (user c) now) = None
    | Blocked =>
        ConnectedClients (handleRegister json_Marshal p now s).1
          = ConnectedClients s ∧
        ∃ quiet room,
          visited = quiet ++ [room] ∧
          is_Some (json_Marshal (joinMsg room (user c) now)) ∧
          ∀ r, r ∈ quiet → json_Marshal (joinMsg r (user c) now) = None
    | Panic => False
    end.
Proof.
  intros Hp. unfold handleRegister. simpl. rewrite Hp.
  set (s2 := go _ _).
  destruct (register_rooms_run p (user c) now (room_keys c) s2)
    as (visited & rest & Hsplit & Hc & Hr & (Hm & Hl & Hh & Hsp & Hcc & Hms) & Hend).
  exists visited, rest.
  destruct (register_rooms _ _ _ _ _ _) as [s3 [[]| |]]; simpl in *;
    [|done|].
  - destruct Hend as [-> Hnone]. split_and!; try done. by rewrite Hcc.
  - split_and!; try done.
Qed.

Lemma handleUnregister_absent p now s :
  p ∉ clients s → handleUnregister json_Marshal p now s = (s, Ok tt).
Proof. intros H. unfold handleUnregister. by rewrite bool_decide_false. Qed.

(** handleUnregister, for a registered connection with an open queue:
    the connection is deregistered and its queue closed, with its
    content as it was, whatever follows; the handler returns, with the
    gauge decremented, when it has visited every room, and waits for
    h.mu for ever at the first room with an entry whose leave event
    marshals. No other queue is touched. *)
Lemma handleUnregister_run p c now s :
  p ∈ clients s →
  heap s !! p = Some c →
  closed (send c) = false →
  ∃ visited rest,
    room_keys c = visited ++ rest ∧
    clients (handleUnregister json_Marshal p now s).1 = clients s ∖ {[p]} ∧
    rooms (handleUnregister json_Marshal p now s).1
      = leave_rooms p visited (rooms s) ∧
    matches (handleUnregister json_Marshal p now s).1 = matches s ∧
    roomLimiters (handleUnregister json_Marshal p now s).1 = roomLimiters s ∧
    heap (handleUnregister json_Marshal p now s).1
      = <[p := set_send c {| buf := buf (send c); cap := cap (send c);
                             closed := true |}]> (heap s) ∧
    spawned (handleUnregister json_Marshal p now s).1 = spawned s ∧
    MessagesSent (handleUnregister json_Marshal p now s).1 = MessagesSent s ∧
    match (handleUnregister json_Marshal p now s).2 with
    | Ok _ =>
        rest = [] ∧
        ConnectedClients (handleUnregister json_Marshal p now s).1
          = (ConnectedClients s - 1)%Z
    | Blocked =>
        ConnectedClients (handleUnregister json_Marshal p now s).1
          = ConnectedClients s ∧
        ∃ quiet room,
          visited = quiet ++ [room] ∧
          is_Some (json_Marshal (leaveMsg room (user c) now)) ∧
          is_Some (leave_rooms p quiet (rooms s) !! room)
    | Panic => False
    end.
Proof.
  intros Hin Hp Hcl. unfold handleUnregister.
  rewrite bool_decide_true by done. simpl. rewrite Hp.
  unfold chan_close. rewrite Hcl.
  set (s2 := set_heap _ _).
  destruct (unregister_rooms_run p (user c) now (room_keys c) s2)
    as (visited & rest & Hsplit & Hc & Hr & (Hm & Hl & Hh & Hsp & Hcc & Hms) & Hend).
  exists visited, rest.
  destruct (unregister_rooms _ _ _ _ _ _) as [s3 [[]| |]]; simpl in *;
    [|done|].
  - split_and!; try done. rewrite Hcc. lia.
  - split_and!; try done.
Qed.

(** *** The invariant of the index *)

Lemma Inv_NewHub : Inv (@NewHub Payload).
Proof.
  split.
  - intros r ms. simpl. by rewrite lookup_empty.
  - intros p r. simpl. rewrite rooms_lookup_total, lookup_empty. simpl.
    split; [intros []%not_elem_of_empty | intros [[]%not_elem_of_empty _]].
  - intros p. simpl. intros Hin. by apply not_elem_of_empty in Hin.
Qed.

Lemma Inv_fresh s p :
  Inv s → heap s !! p = None → (p ∉ clients s) ∧ (∀ r, p ∉ rooms s !!! r).
Proof.
  intros [_ I2 I3] Hp.
  assert (p ∉ clients s) as Hnc.
  { intros Hin. destruct (I3 p Hin) as [[c Hc] _]. congruence. }
  split; [done|]. intros r Hin. apply I2 in Hin as [? _]. done.
Qed.

(** A new connection that is put in the member set of each of its
    rooms. *)
Lemma Inv_registered s s' p c :
  Inv s → heap s !! p = None → closed (send c) = false →
  clients s' = {[p]} ∪ clients s →
  rooms s' = join_rooms p (room_keys c) (rooms s) →
  heap s' = <[p := c]> (heap s) →
  Inv s'.
Proof.
  intros HI Hp Hopen Hc Hr Hh. destruct (Inv_fresh s p HI Hp) as [Hnc Hnr].
  destruct HI as [I1 I2 I3].
  assert (Hrooms : ∀ q, rooms_of s' q =
                     if decide (q = p) then dom (c_rooms c) else rooms_of s q).
  { intros q. unfold rooms_of. rewrite Hh.
    destruct (decide (q = p)) as [->|Hne];
      [by rewrite lookup_insert_eq | by rewrite lookup_insert_ne]. }
  split.
  - rewrite Hr. by apply join_rooms_nonempty.
  - intros q r.
    rewrite Hr, Hc, Hrooms, join_rooms_lookup_total.
    rewrite elem_of_union, elem_of_singleton.
    destruct (decide (q = p)) as [->|Hne].
    + rewrite <-elem_of_room_keys.
      destruct (decide (r ∈ room_keys c)).
      * rewrite elem_of_union, elem_of_singleton. tauto.
      * split; [intros Hin; by apply Hnr in Hin | tauto].
    + pose proof (I2 q r) as Hqr. destruct (decide (r ∈ room_keys c)).
      * rewrite elem_of_union, elem_of_singleton. tauto.
      * tauto.
  - intros q. unfold queue_closed. rewrite Hc, Hh.
    rewrite elem_of_union, elem_of_singleton.
    destruct (decide (q = p)) as [->|Hne].
    + intros _. rewrite lookup_insert_eq. split; [eauto | done].
    + intros [?|Hin]; [done|]. rewrite lookup_insert_ne by done.
      by apply I3.
Qed.

(** A registered connection that is taken out of the member set of each
    of its rooms. *)
Lemma Inv_deregistered s s' p c c' :
  Inv s → heap s !! p = Some c → c_rooms c' = c_rooms c →
  clients s' = clients s ∖ {[p]} →
  rooms s' = leave_rooms p (room_keys c) (rooms s) →
  heap s' = <[p := c']> (heap s) →
  Inv s'.
Proof.
  intros [I1 I2 I3] Hp Hcr Hc Hr Hh.
  assert (Hrooms : ∀ q, rooms_of s' q = rooms_of s q).
  { intros q. unfold rooms_of. rewrite Hh.
    destruct (decide (q = p)) as [->|Hne].
    - by rewrite lookup_insert_eq, Hp, Hcr.
    - by rewrite lookup_insert_ne. }
  split.
  - rewrite Hr. by apply leave_rooms_nonempty.
  - intros q r.
    rewrite Hr, Hc, Hrooms, leave_rooms_lookup_total, elem_of_difference,
      elem_of_singleton.
    pose proof (I2 q r) as Hqr. destruct (decide (r ∈ room_keys c)) as [Hk|Hk].
    + rewrite elem_of_difference, elem_of_singleton. tauto.
    + destruct (decide (q = p)) as [->|]; [|tauto].
      split; [|tauto]. intros Hq. apply Hqr in Hq as [_ Hq].
      unfold rooms_of in Hq. rewrite Hp in Hq.
      by apply elem_of_room_keys in Hq.
  - intros q. unfold queue_closed. rewrite Hc, Hh.
    rewrite elem_of_difference, elem_of_singleton. intros [Hq Hne].
    rewrite lookup_insert_ne by done. by apply I3.
Qed.

(** *** The other steps leave the index alone *)

Lemma send_blocking_frame p payload s s' :
  send_blocking p payload s = Ok s' →
  same_hub s s' ∧ heap_ext (heap s) (heap s').
Proof.
  unfold send_blocking. intros H. apply bind_Ok in H as (c & Hc & H).
  apply deref_Ok in Hc.
  destruct (chan_send (send c) payload) as [ch| |] eqn:E; simplify_eq.
  split; [done|]. simpl. apply heap_ext_insert with c; [done|].
  pose proof (static_push payload c) as Hs. unfold push in Hs.
  by rewrite E in Hs.
Qed.

Lemma send_history_frame p room msgs s s' b :
  send_history json_Marshal p room msgs s = Ok (s', b) →
  same_hub s s' ∧ heap_ext (heap s) (heap s').
Proof.
  revert s. induction msgs as [|msg msgs IH]; intros s H; simpl in H.
  - simplify_eq. split; [done | apply heap_ext_refl].
  - destruct (json_Marshal (historyMsg room msg)) as [payload|]; [|by apply IH].
    apply bind_Ok in H as (c & Hc & H). apply deref_Ok in Hc.
    destruct (chan_send (send c) payload) as [ch| |] eqn:E; simplify_eq.
    + apply IH in H as [Hhub Hh]. split.
      * eapply same_hub_trans; [|exact Hhub]. done.
      * eapply heap_ext_trans; [|exact Hh]. simpl.
        apply heap_ext_insert with c; [done|].
        pose proof (static_push payload c) as Hs. unfold push in Hs.
        by rewrite E in Hs.
    + split; [done | apply heap_ext_refl].
Qed.

Lemma initial_rooms_frame get p now rs s s' :
  initial_rooms json_Marshal get p now rs s = Ok s' →
  same_hub s s' ∧ heap_ext (heap s) (heap s').
Proof.
  revert s. induction rs as [|room rs IH]; intros s H; simpl in H.
  - simplify_eq. split; [done | apply heap_ext_refl].
  - destruct (get room) as [messages|]; [|by apply IH].
    apply bind_Ok in H as ([s1 returned] & H1 & H).
    apply send_history_frame in H1 as [Hhub1 Hh1].
    destruct returned.
    + simplify_eq. done.
    + apply bind_Ok in H as (s2 & H2 & H). apply IH in H as [Hhub3 Hh3].
      assert (same_hub s1 s2 ∧ heap_ext (heap s1) (heap s2)) as [Hhub2 Hh2].
      { destruct (matches s1 !! room) as [m|].
        - destruct (json_Marshal (matchMsg room m now)).
          + by apply send_blocking_frame in H2.
          + simplify_eq. split; [done | apply heap_ext_refl].
        - simplify_eq. split; [done | apply heap_ext_refl]. }
      split.
      * eapply same_hub_trans; [|exact Hhub3]. by eapply same_hub_trans.
      * eapply heap_ext_trans; [|exact Hh3]. by eapply heap_ext_trans.
Qed.

Lemma sendInitialData_frame get p now s s' :
  sendInitialData json_Marshal get p now s = Ok s' →
  same_hub s s' ∧ heap_ext (heap s) (heap s').
Proof.
  unfold sendInitialData. intros H. apply bind_Ok in H as (c & _ & H).
  by apply initial_rooms_frame in H.
Qed.

Lemma reply_error_frame p content s s' :
  reply_error json_Marshal p content s = Ok s' →
  same_hub s s' ∧ heap_ext (heap s) (heap s').
Proof.
  unfold reply_error. destruct (json_Marshal (errorMsg content)).
  - apply send_blocking_frame.
  - intros [= <-]. split; [done | apply heap_ext_refl].
Qed.

Lemma readPump_frame_frame p frame now s s' submitted :
  readPump_frame json_Marshal json_Unmarshal p frame now s = Ok (s', submitted) →
  same_hub s s' ∧ heap_ext (heap s) (heap s').
Proof.
  unfold readPump_frame. intros H. apply bind_Ok in H as (c & Hc & H).
  apply deref_Ok in Hc.
  destruct (json_Unmarshal frame) as [wsMessage|].
  2:{ simplify_eq. split; [done | apply heap_ext_refl]. }
  destruct (rate.Allow now (limiter c)) as [ok lim].
  assert (heap_ext (heap s) (<[p := set_limiter c lim]> (heap s))) as Hlim
    by (by apply heap_ext_insert with c).
  destruct ok; simpl in H.
  - destruct (canAccessRoom c (ChatRoom wsMessage)); simpl in H.
    + by simplify_eq.
    + apply bind_Ok in H as (s2 & H & [= <- <-]).
      apply reply_error_frame in H as [Hhub Hh]. split.
      * eapply same_hub_trans; [|exact Hhub]. done.
      * by eapply heap_ext_trans.
  - apply bind_Ok in H as (s2 & H & [= <- <-]).
    apply reply_error_frame in H as [Hhub Hh]. split.
    + eapply same_hub_trans; [|exact Hhub]. done.
    + by eapply heap_ext_trans.
Qed.

Lemma writePump_drain_frame p s :
  same_hub s (writePump_drain p s) ∧
  heap_ext (heap s) (heap (writePump_drain p s)).
Proof.
  unfold writePump_drain. destruct (heap s !! p) as [c|] eqn:E.
  - split; [done|]. simpl. by apply heap_ext_insert with c.
  - split; [done | apply heap_ext_refl].
Qed.

Lemma update_matches_frame now ms s :
  same_index s (update_matches now ms s).1 ∧
  roomLimiters (update_matches now ms s).1 = roomLimiters s ∧
  heap (update_matches now ms s).1 = heap s.
Proof.
  revert s. induction ms as [|m ms IH]; intros s; simpl; [done|].
  destruct (needs_broadcast (matches s) m); [|apply IH].
  specialize (IH (set_matches (<[ID m := m]>) s)).
  destruct (update_matches now ms _) as [s2 out]. simpl in *. exact IH.
Qed.

Lemma checkRateLimit_frame room now s :
  same_index s (checkRateLimit room now s).2 ∧
  matches (checkRateLimit room now s).2 = matches s ∧
  heap (checkRateLimit room now s).2 = heap s ∧
  spawned (checkRateLimit room now s).2 = spawned s.
Proof.
  unfold checkRateLimit. by destruct (rate.Allow _ _).
Qed.

Lemma handleBroadcast_frame message now s s' :
  handleBroadcast json_Marshal message now s = Ok s' →
  same_index s s' ∧ matches s' = matches s ∧ heap_ext (heap s) (heap s').
Proof.
  unfold handleBroadcast.
  pose proof (checkRateLimit_frame (ChatRoom message) now s) as (Hi & Hm & Hh & _).
  destruct (checkRateLimit _ _ _) as [ok s1]. simpl in *.
  destruct ok; simpl.
  - intros H. apply bind_Ok in H as (s3 & H & [= <-]).
    apply broadcastToRoom_frame in H as [[[Hc Hr] [Hm' _]] Hh'].
    destruct Hi as [Hc1 Hr1].
    assert (heap (if bool_decide (WS_Type message = MessageTypeChat)
                  then go (GoPersistMessage message) s1 else s1) = heap s) as Hh2
      by (by case_bool_decide).
    rewrite Hh2 in Hh'. simpl. repeat split; [| | |done];
      case_bool_decide; simpl in *; congruence.
  - intros [= <-]. rewrite Hh. repeat split; try done; try apply Hi.
Qed.

(** *** The invariants of the system are kept by every step *)

Lemma SysInv_start : SysInv (@start Payload).
Proof.
  split; simpl.
  - intros r ms. by rewrite lookup_empty.
  - intros p r. rewrite rooms_lookup_total, lookup_empty. simpl.
    by intros []%not_elem_of_empty.
  - intros p Hin. by apply not_elem_of_empty in Hin.
  - intros _. apply Inv_NewHub.
  - intros p Hin. apply elem_of_union in Hin as [Hin|Hin];
      by apply not_elem_of_empty in Hin.
  - intros p c. by rewrite lookup_empty.
Qed.

Lemma SysInv_ext σ s' :
  same_index (hub σ) s' → heap_ext (heap (hub σ)) (heap s') →
  SysInv σ → SysInv (with_hub s' σ).
Proof.
  intros [Hc Hr] Hh [J1 J2 J3 J4 J5 J6]. split; simpl.
  - rewrite Hr. exact J1.
  - intros p r. rewrite Hr, (heap_ext_rooms_of (hub σ) s') by done. apply J2.
  - intros p. rewrite Hc, (heap_ext_closed (hub σ) s'),
      (heap_ext_is_Some (hub σ) s') by done. apply J3.
  - intros Hrun. eapply Inv_ext; [split; [exact Hc | exact Hr] | exact Hh|].
    by apply J4.
  - intros p Hp. rewrite (heap_ext_is_Some (hub σ) s') by done. by apply J5.
  - intros p c' Hp. specialize (Hh p). rewrite Hp in Hh.
    destruct (heap (hub σ) !! p) as [c|] eqn:E; [|done].
    simpl in Hh. unfold static in Hh.
    assert (cap (send c') = cap (send c)) as -> by congruence.
    by eapply J6.
Qed.

Lemma Run_after_Running ending :
  Run_after ending = Running → ending = Ok tt.
Proof. by destruct ending as [[]| |]. Qed.

Lemma SysInv_register σ p c now s' ending :
  SysInv σ →
  coordinator σ = Running →
  heap (hub σ) !! p = None →
  fresh_client c →
  handleRegister json_Marshal p now (set_heap (<[p := c]>) (hub σ))
    = (s', ending) →
  SysInv {| hub := s'; coordinator := Run_after ending;
            reading := {[p]} ∪ reading σ; leaving := leaving σ |}.
Proof.
  intros [J1 J2 J3 J4 J5 J6] Hrun Hp (Hopen & Hbuf & Hcap) H.
  destruct (handleRegister_run p c now (set_heap (<[p := c]>) (hub σ)))
    as (visited & rest & Hsplit & Hc & Hr & _ & _ & Hh & _ & _ & Hend).
  { simpl. by rewrite lookup_insert_eq. }
  rewrite H in Hc, Hr, Hh, Hend. simpl in Hc, Hr, Hh, Hend.
  assert (Hrooms : ∀ q, rooms_of s' q =
                     if decide (q = p) then dom (c_rooms c)
                     else rooms_of (hub σ) q).
  { intros q. unfold rooms_of. rewrite Hh.
    destruct (decide (q = p)) as [->|Hne];
      [by rewrite lookup_insert_eq | by rewrite lookup_insert_ne]. }
  assert (Hold : ∀ r, p ∉ rooms (hub σ) !!! r).
  { intros r Hin. apply J2 in Hin. unfold rooms_of in Hin.
    rewrite Hp in Hin. by apply not_elem_of_empty in Hin. }
  split; simpl.
  - rewrite Hr. by apply join_rooms_nonempty.
  - intros q r. rewrite Hr, Hrooms, join_rooms_lookup_total.
    destruct (decide (q = p)) as [->|Hne].
    + destruct (decide (r ∈ visited)) as [Hv|Hv].
      * intros _. apply elem_of_room_keys. rewrite Hsplit.
        apply elem_of_app. by left.
      * intros Hin. by apply Hold in Hin.
    + destruct (decide (r ∈ visited)).
      * rewrite elem_of_union, elem_of_singleton. intros [?|?]; [done|].
        by apply J2.
      * apply J2.
  - intros q. unfold queue_closed. rewrite Hc, Hh.
    rewrite elem_of_union, elem_of_singleton.
    destruct (decide (q = p)) as [->|Hne].
    + intros _. rewrite lookup_insert_eq. split; [eauto | done].
    + intros [?|Hin]; [done|]. rewrite lookup_insert_ne by done.
      by apply J3.
  - intros Hok. apply Run_after_Running in Hok as ->.
    destruct Hend as (-> & _). rewrite app_nil_r in Hsplit. subst visited.
    by apply (Inv_registered (hub σ) s' p c (J4 Hrun)).
  - intros q Hq. rewrite Hh.
    destruct (decide (q = p)) as [->|Hne]; [by rewrite lookup_insert_eq|].
    rewrite lookup_insert_ne by done. apply J5.
    apply elem_of_union in Hq as [Hq|Hq].
    + apply elem_of_union in Hq as [Hq|Hq].
      * by apply elem_of_singleton in Hq.
      * apply elem_of_union. by left.
    + apply elem_of_union. by right.
  - intros q cq. rewrite Hh.
    destruct (decide (q = p)) as [->|Hne].
    + rewrite lookup_insert_eq. by intros [= <-].
    + rewrite lookup_insert_ne by done. apply J6.
Qed.

Lemma SysInv_pump_end σ p :
  SysInv σ → p ∈ reading σ →
  SysInv {| hub := hub σ; coordinator := coordinator σ;
            reading := reading σ ∖ {[p]}; leaving := {[p]} ∪ leaving σ |}.
Proof.
  intros [J1 J2 J3 J4 J5 J6] Hp. split; simpl; try done.
  intros q Hq. apply J5. apply elem_of_union in Hq as [Hq|Hq].
  - apply elem_of_difference in Hq as [Hq _]. apply elem_of_union. by left.
  - apply elem_of_union in Hq as [Hq|Hq].
    + apply elem_of_singleton in Hq as ->. apply elem_of_union. by left.
    + apply elem_of_union. by right.
Qed.

Lemma SysInv_unregister σ p now s' ending :
  SysInv σ →
  coordinator σ = Running →
  handleUnregister json_Marshal p now (hub σ) = (s', ending) →
  SysInv {| hub := s'; coordinator := Run_after ending;
            reading := reading σ; leaving := leaving σ |}.
Proof.
  intros HJ Hrun H.
  destruct (decide (p ∈ clients (hub σ))) as [Hin|Hnin].
  2:{ rewrite handleUnregister_absent in H by done. injection H as <- <-.
      destruct HJ as [J1 J2 J3 J4 J5 J6]. split; simpl; try done.
      intros _. by apply J4. }
  destruct HJ as [J1 J2 J3 J4 J5 J6].
  destruct (J3 p Hin) as [[c Hp] Hopen].
  unfold queue_closed in Hopen. rewrite Hp in Hopen.
  destruct (handleUnregister_run p c now (hub σ) Hin Hp Hopen)
    as (visited & rest & Hsplit & Hc & Hr & _ & _ & Hh & _ & _ & Hend).
  rewrite H in Hc, Hr, Hh, Hend. simpl in Hc, Hr, Hh, Hend.
  assert (Hrooms : ∀ q, rooms_of s' q = rooms_of (hub σ) q).
  { intros q. unfold rooms_of. rewrite Hh.
    destruct (decide (q = p)) as [->|Hne].
    - by rewrite lookup_insert_eq, Hp.
    - by rewrite lookup_insert_ne. }
  split; simpl.
  - rewrite Hr. by apply leave_rooms_nonempty.
  - intros q r. rewrite Hr, Hrooms, leave_rooms_lookup_total.
    destruct (decide (r ∈ visited)).
    + rewrite elem_of_difference. intros [? _]. by apply J2.
    + apply J2.
  - intros q. unfold queue_closed. rewrite Hc, Hh.
    rewrite elem_of_difference, elem_of_singleton. intros [Hq Hne].
    rewrite lookup_insert_ne by done. by apply J3.
  - intros Hok. apply Run_after_Running in Hok as ->.
    destruct Hend as [-> _]. rewrite app_nil_r in Hsplit. subst visited.
    by apply (Inv_deregistered (hub σ) s' p c
                (set_send c {| buf := buf (send c); cap := cap (send c);
                               closed := true |}) (J4 Hrun)).
  - intros q Hq. rewrite Hh.
    destruct (decide (q = p)) as [->|Hne]; [by rewrite lookup_insert_eq|].
    rewrite lookup_insert_ne by done. by apply J5.
  - intros q cq. rewrite Hh.
    destruct (decide (q = p)) as [->|Hne].
    + rewrite lookup_insert_eq. intros [= <-]. simpl. by eapply J6.
    + rewrite lookup_insert_ne by done. apply J6.
Qed.

(** The invariants hold in every state of the system. *)
Lemma reachable_SysInv σ :
  reachable json_Marshal json_Unmarshal σ → SysInv σ.
Proof.
  induction 1 as [ |σ p c now s' ending _ IH Hrun Hp Hfresh H _
                   |σ p _ IH Hp
                   |σ p now s' ending _ IH Hrun _ H _
                   |σ message now s' _ IH Hrun H
                   |σ fetched now _ IH
                   |σ get p now s' _ IH _ H
                   |σ p frame now s' submitted _ IH _ H
                   |σ p _ IH].
  - apply SysInv_start.
  - by eapply SysInv_register.
  - by apply SysInv_pump_end.
  - by eapply SysInv_unregister.
  - apply handleBroadcast_frame in H as (Hi & _ & Hh). by apply SysInv_ext.
  - destruct fetched as [ms|]; simpl.
    + pose proof (update_matches_frame now ms (hub σ)) as (Hi & _ & Hh).
      apply SysInv_ext; [exact Hi| |exact IH]. rewrite Hh. apply heap_ext_refl.
    + apply SysInv_ext; [done | apply heap_ext_refl | exact IH].
  - apply sendInitialData_frame in H as [[Hi _] Hh]. by apply SysInv_ext.
  - apply readPump_frame_frame in H as [[Hi _] Hh]. by apply SysInv_ext.
  - pose proof (writePump_drain_frame p (hub σ)) as [[Hi _] Hh].
    by apply SysInv_ext.
Qed.

(** While the coordinator is in its loop, the index is consistent. *)
Lemma reachable_running_Inv σ :
  reachable json_Marshal json_Unmarshal σ →
  coordinator σ = Running → Inv (hub σ).
Proof. intros Hreach. by apply (sys_running σ (reachable_SysInv σ Hreach)). Qed.

(** *** Fan-out to a room *)

Lemma Inv_members_open s : Inv s → members_open s.
Proof. intros [_ I2 I3] r q Hq. apply I3. by apply I2 in Hq as [? _]. Qed.

Lemma members_open_ext s s' :
  same_index s s' → heap_ext (heap s) (heap s') →
  members_open s → members_open s'.
Proof.
  intros [_ Hr] Hh H r q. rewrite Hr.
  rewrite (heap_ext_closed s s'), (heap_ext_is_Some s s') by done. apply H.
Qed.

Lemma buf_push payload c :
  closed (send c) = false →
  buf (send (push payload c)) =
    if bool_decide (cap (send c) ≤ length (buf (send c)))
    then buf (send c) else buf (send c) ++ [payload].
Proof.
  intros Hc. unfold push. rewrite chan_send_open by done.
  repeat case_bool_decide; try lia; done.
Qed.

Lemma broadcastToRoom_spec room message payload s :
  members_open s → json_Marshal message = Some payload →
  ∃ s', broadcastToRoom json_Marshal room message s = Ok s' ∧
    same_hub s s' ∧
    (∀ q, heap s' !! q =
          if decide (q ∈ rooms s !!! room) then push payload <$> heap s !! q
          else heap s !! q) ∧
    spawned s' =
      spawned s ++ (GoUnregister <$>
        filter (λ q, queue_full s q) (elements (rooms s !!! room))).
Proof.
  intros Hopen Hm. unfold broadcastToRoom. rewrite Hm.
  destruct (fanout_spec payload (elements (rooms s !!! room)) s)
    as (s' & Hrun & Hhub & Hheap & Hsp).
  { apply NoDup_elements. }
  { intros q Hq. apply (Hopen room). by apply elem_of_elements. }
  exists s'. repeat split; try done; try apply Hhub.
  intros q. rewrite Hheap.
  destruct (decide (q ∈ elements (rooms s !!! room))) as [Hin|Hnin].
  - by rewrite decide_True by (by apply elem_of_elements).
  - rewrite decide_False; [done|]. by rewrite <-elem_of_elements.
Qed.

(** C3. Fan-out of a message to a room, by a broadcastToRoom that
    finds h.mu free, in any hub whose index is consistent (as it is
    whenever the coordinator is in its loop, [reachable_running_Inv]):
    no member is skipped. A member whose queue has a free slot
    gets the payload appended to its queue. A member whose queue is full
    keeps its queue and has its deregistration started as a task of its
    own ([go h.unregister <- client]): within the fan-out it stays
    registered, stays in the room and its queue stays open. Nothing else
    changes: the index, the queues of non-members, and no other task is
    started. *)
Theorem C3_fanout_delivers_or_evicts s room message payload :
  Inv s →
  json_Marshal message = Some payload →
  ∃ s', broadcastToRoom json_Marshal room message s = Ok s' ∧
    same_hub s s' ∧
    (∀ p, p ∈ rooms s !!! room →
       if queue_full s p
       then queue s' p = queue s p ∧ GoUnregister p ∈ spawned s' ∧
            p ∈ clients s' ∧ p ∈ rooms s' !!! room ∧ queue_closed s' p = false
       else queue s' p = queue s p ++ [payload]) ∧
    (∀ p, p ∉ rooms s !!! room → heap s' !! p = heap s !! p) ∧
    (∀ t, t ∈ spawned s' →
       t ∈ spawned s ∨
       ∃ p, t = GoUnregister p ∧ p ∈ rooms s !!! room ∧ queue_full s p = true).
Proof.
  intros HI Hm.
  pose proof (Inv_members_open s HI) as Hopen.
  destruct (broadcastToRoom_spec room message payload s Hopen Hm)
    as (s' & Hrun & Hhub & Hheap & Hsp).
  exists s'. split; [done|]. split; [done|]. split; [|split].
  - intros p Hp. destruct (Hopen room p Hp) as [[c Hc] Hcl].
    unfold queue_closed in Hcl. rewrite Hc in Hcl.
    assert (Hp' : heap s' !! p = Some (push payload c)).
    { rewrite Hheap, decide_True, Hc by done. done. }
    assert (Hq : queue s' p = buf (send (push payload c)))
      by (unfold queue; by rewrite Hp').
    rewrite Hq, buf_push by done. unfold queue_full, queue. rewrite Hc.
    case_bool_decide as Hfull; [|done].
    destruct Hhub as [[Hcs Hrs] _]. repeat split.
    + rewrite Hsp. apply elem_of_app. right. apply list_elem_of_fmap.
      exists p. split; [done|]. apply list_elem_of_filter. split.
      * unfold queue_full. rewrite Hc. by apply bool_decide_pack.
      * by apply elem_of_elements.
    + rewrite Hcs. destruct HI as [_ I2 _]. by apply I2 in Hp as [? _].
    + by rewrite Hrs.
    + unfold queue_closed. rewrite Hp'.
      pose proof (static_push payload c) as Hst. unfold static in Hst.
      congruence.
  - intros p Hp. by rewrite Hheap, decide_False.
  - intros t. rewrite Hsp, elem_of_app. intros [?|Ht]; [by left|right].
    apply list_elem_of_fmap in Ht as (p & -> & Hin).
    apply list_elem_of_filter in Hin as [Hfull Hin].
    exists p. repeat split; [by apply elem_of_elements|].
    by apply Is_true_true.
Qed.

(** *** The match poller *)

Lemma needs_broadcast_true (cache : gmap string Match) m :
  needs_broadcast cache m = true ↔
  cache !! ID m = None ∨
  ∃ old, cache !! ID m = Some old ∧
    (HomeScore old ≠ HomeScore m ∨ AwayScore old ≠ AwayScore m ∨
     Status old ≠ Status m).
Proof.
  unfold needs_broadcast, matchNeedsUpdate.
  destruct (cache !! ID m) as [old|]; [|by split; [left|]].
  split.
  - intros H. right. exists old. split; [done|].
    repeat case_bool_decide; simpl in H; try done; tauto.
  - intros [?|(old' & [= <-] & H)]; [done|].
    repeat case_bool_decide; simpl; try done. tauto.
Qed.

Lemma matchNeedsUpdate_same m : matchNeedsUpdate m m = false.
Proof. unfold matchNeedsUpdate. repeat case_bool_decide; done. Qed.

Lemma needs_broadcast_insert_ne (cache : gmap string Match) m m' :
  ID m ≠ ID m' →
  needs_broadcast (<[ID m := m]> cache) m' = needs_broadcast cache m'.
Proof. intros H. unfold needs_broadcast. by rewrite lookup_insert_ne. Qed.

Lemma filter_needs_ext (cache cache' : gmap string Match) (ms : list Match) :
  (∀ m, m ∈ ms → needs_broadcast cache' m = needs_broadcast cache m) →
  filter (λ m, needs_broadcast cache' m) ms
  = filter (λ m, needs_broadcast cache m) ms.
Proof.
  induction ms as [|m ms IH]; intros H; [done|].
  rewrite !filter_cons, H by (apply elem_of_cons; auto).
  rewrite IH; [done|]. intros m' Hm'. apply H, elem_of_cons; auto.
Qed.

Lemma update_matches_spec now ms s :
  NoDup (ID <$> ms) →
  (update_matches now ms s).2
    = (λ m, updateMsg m now) <$> filter (λ m, needs_broadcast (matches s) m) ms ∧
  (∀ m, m ∈ ms →
     matches (update_matches now ms s).1 !! ID m
     = if needs_broadcast (matches s) m then Some m else matches s !! ID m) ∧
  (∀ k, k ∉ ID <$> ms →
     matches (update_matches now ms s).1 !! k = matches s !! k).
Proof.
  revert s. induction ms as [|m ms IH]; intros s Hnd.
  - simpl. split; [done|]. split; [|done].
    intros m Hm. by apply elem_of_nil in Hm.
  - rewrite fmap_cons in Hnd. apply NoDup_cons in Hnd as [Hm Hnd].
    assert (Hne : ∀ m', m' ∈ ms → ID m ≠ ID m').
    { intros m' Hm' Heq. apply Hm. rewrite Heq.
      apply list_elem_of_fmap. eauto. }
    simpl. rewrite filter_cons.
    destruct (needs_broadcast (matches s) m) eqn:Hneeds; simpl.
    + destruct (IH (set_matches (<[ID m := m]>) s) Hnd) as (Hout & Hin & Hnot).
      destruct (update_matches now ms _) as [s2 out]. simpl in *.
      split; [|split].
      * rewrite Hout. f_equal. f_equal. apply filter_needs_ext.
        intros m' Hm'. by apply needs_broadcast_insert_ne, Hne.
      * intros m' [->|Hm']%elem_of_cons.
        -- rewrite Hneeds, Hnot by done. by rewrite lookup_insert_eq.
        -- rewrite Hin by done.
           rewrite needs_broadcast_insert_ne by (by apply Hne).
           rewrite lookup_insert_ne by (by apply Hne). done.
      * intros k Hk. apply not_elem_of_cons in Hk as [Hk1 Hk2].
        rewrite Hnot by done. by rewrite lookup_insert_ne.
    + destruct (IH s Hnd) as (Hout & Hin & Hnot).
      split; [done|]. split.
      * intros m' [->|Hm']%elem_of_cons; [|by apply Hin].
        rewrite Hneeds. by apply Hnot.
      * intros k Hk. apply not_elem_of_cons in Hk as [Hk1 Hk2].
        by apply Hnot.
Qed.

Lemma update_matches_quiet now ms s :
  (∀ m, m ∈ ms → needs_broadcast (matches s) m = false) →
  update_matches now ms s = (s, []).
Proof.
  induction ms as [|m ms IH]; intros H; [done|].
  simpl. rewrite H by (apply elem_of_cons; auto).
  apply IH. intros m' Hm'. apply H, elem_of_cons; auto.
Qed.

(** C5. One poll tick over the matches the store returns (their
    identifiers are distinct: the identifier is the primary key). A
    match is broadcast exactly when it is new to the cache or its home
    score, away score or status differs from the cached snapshot; the
    messages go out in the order of the matches, as events for the room
    named by the match; the cache then holds the new snapshot of every
    match that was broadcast and is unchanged for the others; and a
    second poll that returns the same matches broadcasts nothing and
    changes nothing. *)
Theorem C5_poll_broadcasts_changes_only s now ms :
  NoDup (ID <$> ms) →
  (∀ m, needs_broadcast (matches s) m = true ↔
        matches s !! ID m = None ∨
        ∃ old, matches s !! ID m = Some old ∧
          (HomeScore old ≠ HomeScore m ∨ AwayScore old ≠ AwayScore m ∨
           Status old ≠ Status m)) ∧
  (fetchMatchUpdates (Some ms) now s).2
    = (λ m, updateMsg m now) <$> filter (λ m, needs_broadcast (matches s) m) ms ∧
  (∀ m, WS_Type (updateMsg m now) = MessageTypeEvent ∧
        ChatRoom (updateMsg m now) = ID m ∧
        WS_Match (updateMsg m now) = Some m) ∧
  (∀ m, m ∈ ms →
     matches (fetchMatchUpdates (Some ms) now s).1 !! ID m
     = if needs_broadcast (matches s) m then Some m else matches s !! ID m) ∧
  (∀ now', fetchMatchUpdates (Some ms) now' (fetchMatchUpdates (Some ms) now s).1
           = ((fetchMatchUpdates (Some ms) now s).1, [])).
Proof.
  intros Hnd. simpl.
  destruct (update_matches_spec now ms s Hnd) as (Hout & Hin & _).
  split; [intros m; apply needs_broadcast_true|].
  split; [done|]. split; [done|]. split; [done|].
  intros now'. apply update_matches_quiet. intros m Hm.
  unfold needs_broadcast at 1. rewrite Hin by done.
  destruct (needs_broadcast (matches s) m) eqn:Hneeds.
  - apply matchNeedsUpdate_same.
  - exact Hneeds.
Qed.

(** *** The read pump *)

Lemma send_blocking_spec p payload s c :
  heap s !! p = Some c → closed (send c) = false →
  send_blocking p payload s =
    if queue_full s p then Blocked
    else Ok (set_heap (<[p := push payload c]>) s).
Proof.
  intros Hp Hc. unfold send_blocking, queue_full, push.
  rewrite (deref_Some _ _ _ Hp), Hp. simpl.
  rewrite chan_send_open by done.
  repeat case_bool_decide; try lia; done.
Qed.




(** *** A broadcast handled by the coordinator *)


Lemma handleBroadcast_admitted message payload now s :
  members_open s →
  (checkRateLimit (ChatRoom message) now s).1 = true →
  json_Marshal message = Some payload →
  ∃ s', handleBroadcast json_Marshal message now s = Ok s' ∧
    same_index s s' ∧
    (∀ q, heap s' !! q =
          if decide (q ∈ rooms s !!! ChatRoom message)
          then push payload <$> heap s !! q
          else heap s !! q) ∧
    (∀ q, q ∈ rooms s !!! ChatRoom message → queue_full s q = true →
          GoUnregister q ∈ spawned s').
Proof.
  intros Hopen Hok Hm. unfold handleBroadcast.
  pose proof (checkRateLimit_frame (ChatRoom message) now s)
    as ([Hc Hr] & _ & Hh & _).
  destruct (checkRateLimit _ _ _) as [ok s1]. simpl in *. subst ok. simpl.
  set (s2 := if bool_decide _ then _ else s1).
  assert (rooms s2 = rooms s ∧ clients s2 = clients s ∧ heap s2 = heap s)
    as (Hr2 & Hc2 & Hh2) by (subst s2; by case_bool_decide).
  assert (members_open s2) as Hopen2.
  { intros r q. unfold queue_closed. rewrite Hr2, Hh2. apply Hopen. }
  destruct (broadcastToRoom_spec (ChatRoom message) message payload s2
              Hopen2 Hm) as (s3 & -> & [[Hc3 Hr3] _] & Hheap & Hsp).
  simpl. eexists. split; [done|]. split; [|split].
  - split; simpl; congruence.
  - intros q. simpl. rewrite Hheap, Hr2, Hh2. done.
  - intros q Hq Hfull. simpl. rewrite Hsp. apply elem_of_app. right.
    apply list_elem_of_fmap. exists q. split; [done|].
    apply list_elem_of_filter. split.
    + unfold queue_full. rewrite Hh2. fold (queue_full s q).
      by rewrite Hfull.
    + apply elem_of_elements. by rewrite Hr2.
Qed.


(** *** The index and the limiters under the two handlers *)

Lemma entry_iff_nonempty (rm : gmap string (gset ptr)) :
  nonempty_entries rm → ∀ r, is_Some (rm !! r) ↔ rm !!! r ≠ ∅.
Proof.
  intros Hne r. rewrite rooms_lookup_total. split.
  - intros [ms Hms]. rewrite Hms. simpl. by eapply Hne.
  - destruct (rm !! r); [eauto | done].
Qed.

Lemma first_visited (rs visited rest : list string) r rs' :
  r :: rs' = visited ++ rest → visited ≠ [] → r ∈ visited.
Proof.
  destruct visited as [|r' visited]; [done|]. simpl. intros [= -> _] _.
  apply list_elem_of_here.
Qed.

(** handleUnregister of a registered connection reaches the room that
    it visits first, however it ends. *)
Lemma handleUnregister_first p c now s r rs :
  p ∈ clients s → heap s !! p = Some c → closed (send c) = false →
  room_keys c = r :: rs →
  ∃ visited,
    r ∈ visited ∧
    rooms (handleUnregister json_Marshal p now s).1
      = leave_rooms p visited (rooms s) ∧
    matches (handleUnregister json_Marshal p now s).1 = matches s ∧
    roomLimiters (handleUnregister json_Marshal p now s).1 = roomLimiters s.
Proof.
  intros Hin Hp Hcl Hkeys.
  destruct (handleUnregister_run p c now s Hin Hp Hcl)
    as (visited & rest & Hsplit & _ & Hr & Hm & Hl & _ & _ & _ & Hend).
  exists visited. split; [|done]. rewrite Hkeys in Hsplit.
  apply (first_visited (r :: rs) visited rest r rs Hsplit).
  destruct (handleUnregister _ _ _ _).2 as [[]| |]; [| done |].
  - destruct Hend as [-> _]. rewrite app_nil_r in Hsplit. by subst visited.
  - destruct Hend as (_ & quiet & room & -> & _). by destruct quiet.
Qed.

(** C1, amended. In every state of the system, also while the
    coordinator waits inside a handler, a room has an entry in the index
    exactly when its member set is not empty; the match cache plays no
    part. When handleUnregister takes the last member out of the room
    that it visits first, the entry of the room is removed, whatever the
    cache holds, and the cache is left as it is, however the handler
    ends; a poll never touches the index. *)
Theorem C1_room_entry_iff_members σ :
  reachable json_Marshal json_Unmarshal σ →
  (∀ r, is_Some (rooms (hub σ) !! r) ↔ rooms (hub σ) !!! r ≠ ∅) ∧
  (∀ p c now r rs,
     p ∈ clients (hub σ) → heap (hub σ) !! p = Some c →
     room_keys c = r :: rs → rooms (hub σ) !! r = Some {[p]} →
     rooms (handleUnregister json_Marshal p now (hub σ)).1 !! r = None ∧
     matches (handleUnregister json_Marshal p now (hub σ)).1
       = matches (hub σ)) ∧
  (∀ fetched now,
     rooms (fetchMatchUpdates fetched now (hub σ)).1 = rooms (hub σ)).
Proof.
  intros Hreach. pose proof (reachable_SysInv σ Hreach) as HJ.
  split; [apply entry_iff_nonempty; exact (sys_nonempty σ HJ)|]. split.
  - intros p c now r rs Hin Hp Hkeys Hr.
    destruct (sys_open σ HJ p Hin) as [_ Hcl].
    unfold queue_closed in Hcl. rewrite Hp in Hcl.
    destruct (handleUnregister_first p c now (hub σ) r rs Hin Hp Hcl Hkeys)
      as (visited & Hv & Hrooms & Hm & _).
    split; [|done]. rewrite Hrooms.
    assert (nonempty_entries (leave_rooms p visited (rooms (hub σ)))) as Hne
      by (apply leave_rooms_nonempty; exact (sys_nonempty σ HJ)).
    destruct (leave_rooms p visited (rooms (hub σ)) !! r) as [ms|] eqn:E;
      [|done].
    exfalso. apply (Hne r ms E).
    assert (leave_rooms p visited (rooms (hub σ)) !!! r = ms) as <-
      by (by rewrite rooms_lookup_total, E).
    rewrite leave_rooms_lookup_total, decide_True by done.
    rewrite rooms_lookup_total, Hr. simpl. apply set_eq. intros x.
    rewrite elem_of_difference. split; [tauto|].
    intros Hx. by apply not_elem_of_empty in Hx.
  - intros [ms|] now; [|done]. simpl.
    by destruct (update_matches_frame now ms (hub σ)) as [[_ ?] _].
Qed.



Lemma handleRegister_limiters p now s :
  roomLimiters (handleRegister json_Marshal p now s).1 = roomLimiters s.
Proof.
  unfold handleRegister. simpl. destruct (heap s !! p) as [c|]; [|done].
  set (s2 := go _ _).
  destruct (register_rooms_run p (user c) now (room_keys c) s2)
    as (_ & _ & _ & _ & _ & (_ & Hl & _) & _).
  by destruct (register_rooms _ _ _ _ _ _) as [s3 [[]| |]].
Qed.

Lemma handleUnregister_limiters p now s :
  roomLimiters (handleUnregister json_Marshal p now s).1 = roomLimiters s.
Proof.
  unfold handleUnregister. case_bool_decide as Hin; [|done]. simpl.
  destruct (heap s !! p) as [c|]; [|done].
  destruct (chan_close (send c)) as [ch|]; [|done].
  set (s2 := set_heap _ _).
  destruct (unregister_rooms_run p (user c) now (room_keys c) s2)
    as (_ & _ & _ & _ & _ & (_ & Hl & _) & _).
  by destruct (unregister_rooms _ _ _ _ _ _) as [s3 [[]| |]].
Qed.

(** C9, amended. A room's limiter is created by the first broadcast to
    the room and is never discarded: handleRegister and
    handleUnregister leave the limiter table as it is, however they
    end and also when the entry of a room is removed, and a later
    message for the room is judged by the stored limiter's token
    state. *)
Theorem C9_room_limiter_persists s p now s' :
  s' = (handleUnregister json_Marshal p now s).1 ∨
  s' = (handleRegister json_Marshal p now s).1 →
  roomLimiters s' = roomLimiters s ∧
  (∀ room lim now',
     roomLimiters s !! room = Some lim →
     (checkRateLimit room now' s').1 = (rate.Allow now' lim).1 ∧
     roomLimiters (checkRateLimit room now' s').2 !! room
       = Some (rate.Allow now' lim).2) ∧
  (∀ room now',
     roomLimiters s !! room = None →
     roomLimiters (checkRateLimit room now' s').2 !! room
       = Some (rate.Allow now' (rate.NewLimiter (rate.Every rate.Second) 10)).2).
Proof.
  intros H.
  assert (roomLimiters s' = roomLimiters s) as Hl.
  { destruct H as [->| ->];
      [apply handleUnregister_limiters | apply handleRegister_limiters]. }
  split; [done|]. split.
  - intros room lim now' Hlim. unfold checkRateLimit. rewrite Hl, Hlim.
    destruct (rate.Allow now' lim) as [ok lim']. simpl.
    by rewrite lookup_insert_eq.
  - intros room now' Hlim. unfold checkRateLimit. rewrite Hl, Hlim.
    destruct (rate.Allow now' _) as [ok lim']. simpl.
    by rewrite lookup_insert_eq.
Qed.

End hub_facts.

(** ** More about the coordinator *)

Section coordinator_facts.

Context {Payload : Type}.
Variable json_Marshal : WSMessage → option Payload.
Implicit Types (s : @State Payload) (c : @Client Payload).
Implicit Types (p q : ptr) (r room : string).

(** *** Queues and slots *)

Lemma queue_pushed s s' q payload :
  heap s' !! q = push payload <$> heap s !! q →
  queue_closed s q = false →
  queue s' q = queue s q ++ (if bool_decide (0 < slots s q) then [payload] else []) ∧
  slots s' q = slots s q - (if bool_decide (0 < slots s q) then 1 else 0) ∧
  queue_closed s' q = false.
Proof.
  unfold queue, slots, queue_closed. intros -> Hcl.
  destruct (heap s !! q) as [c|]; simpl; [|done].
  pose proof (static_push payload c) as Hst. unfold static in Hst.
  rewrite buf_push by done.
  assert (cap (send (push payload c)) = cap (send c)) as -> by congruence.
  assert (closed (send (push payload c)) = false) as -> by congruence.
  repeat case_bool_decide; try lia; rewrite ?length_app, ?app_nil_r; simpl;
    repeat split; try done; lia.
Qed.

(** *** The counters *)

Lemma fanout_effects payload members s s' :
  fanout payload members s = Ok s' →
  same_counters s s' ∧
  ∃ evicted, spawned s' = spawned s ++ (GoUnregister <$> evicted) ∧
             ∀ q, q ∈ evicted → q ∈ members.
Proof.
  revert s. induction members as [|p members IH]; intros s H; simpl in H.
  - simplify_eq. split; [done|]. exists []. simpl. rewrite app_nil_r.
    split; [done|]. intros q Hq. by apply elem_of_nil in Hq.
  - apply bind_Ok in H as (s1 & H1 & H2).
    apply IH in H2 as ([Hc Hm] & evicted & Hsp & Hin).
    unfold deliver in H1. apply bind_Ok in H1 as (c & _ & H1).
    destruct (chan_send (send c) payload) as [ch| |]; simplify_eq; simpl in *.
    + split; [done|]. exists evicted. split; [done|].
      intros q Hq. apply elem_of_cons. right. by apply Hin.
    + split; [done|]. exists (p :: evicted). split.
      * rewrite Hsp. simpl. by rewrite <-app_assoc.
      * intros q [->|Hq]%elem_of_cons; apply elem_of_cons; [by left|].
        right. by apply Hin.
Qed.

Lemma broadcastToRoom_effects room message s s' :
  broadcastToRoom json_Marshal room message s = Ok s' →
  same_counters s s' ∧
  ∃ evicted, spawned s' = spawned s ++ (GoUnregister <$> evicted) ∧
             ∀ q, q ∈ evicted → q ∈ rooms s !!! room.
Proof.
  unfold broadcastToRoom. destruct (json_Marshal message) as [payload|].
  - intros H. apply fanout_effects in H as (Hc & evicted & Hsp & Hin).
    split; [done|]. exists evicted. split; [done|].
    intros q Hq. by apply elem_of_elements, Hin.
  - intros [= <-]. split; [done|]. exists []. simpl. rewrite app_nil_r.
    split; [done|]. intros q Hq. by apply elem_of_nil in Hq.
Qed.

(** *** One fan-out, when the members of the room have open queues *)

Lemma broadcastToRoom_at room message s :
  (∀ q, q ∈ rooms s !!! room →
        is_Some (heap s !! q) ∧ queue_closed s q = false) →
  ∃ s', broadcastToRoom json_Marshal room message s = Ok s' ∧
    same_hub s s' ∧ heap_ext (heap s) (heap s') ∧
    ∀ q, heap s' !! q =
         match json_Marshal message with
         | Some payload =>
             if decide (q ∈ rooms s !!! room) then push payload <$> heap s !! q
             else heap s !! q
         | None => heap s !! q
         end.
Proof.
  intros Hopen. unfold broadcastToRoom.
  destruct (json_Marshal message) as [payload|] eqn:Hm.
  - destruct (fanout_spec payload (elements (rooms s !!! room)) s)
      as (s' & Hrun & Hhub & Hheap & _).
    { apply NoDup_elements. }
    { intros q Hq. by apply Hopen, elem_of_elements. }
    exists s'. split; [done|]. split; [done|]. split.
    + by apply fanout_frame in Hrun as [_ ?].
    + intros q. rewrite Hheap.
      destruct (decide (q ∈ elements (rooms s !!! room))) as [Hin|Hnin].
      * by rewrite decide_True by (by apply elem_of_elements).
      * rewrite decide_False; [done|]. by rewrite <-elem_of_elements.
  - exists s. repeat split; done.
Qed.

(** *** Lists *)

Lemma omap_cons_match {A B} (f : A → option B) (x : A) (l : list A) :
  omap f (x :: l) =
  match f x with
  | Some y => y :: omap f l
  | None => omap f l
  end.
Proof. done. Qed.

End coordinator_facts.

(** ** The coordinator's handlers *)

Section handler_facts.

Context {Payload : Type}.
Variable json_Marshal : WSMessage → option Payload.
Variable json_Unmarshal : Payload → option WSMessage.
Implicit Types (s : @State Payload) (c : @Client Payload).
Implicit Types (σ : @System Payload).
Implicit Types (p q : ptr) (r room : string).

(** *** Where the two handlers stop *)

(** handleRegister of a connection whose first room has a join event
    that json.Marshal encodes: the connection is recorded as registered,
    its initial-data task is started, it is put into the member set of
    that room, and then the handler waits for h.mu in broadcastToRoom
    while holding it: it never returns. No queue has received anything,
    no further room has been visited and the gauge has not been
    incremented. A connection without a room is registered and counted,
    and the handler returns. *)
Theorem handleRegister_stops_at_first_event s p c now :
  heap s !! p = Some c →
  (∀ room rest,
     room_keys c = room :: rest →
     is_Some (json_Marshal
                {| WS_Type := MessageTypeJoin; ChatRoom := room;
              Content := zero_string; WS_User := Some (user c);
              WS_Match := None; WS_Event := None; Timestamp := now;
              Error := zero_string; Data := zero_string |}) →
     handleRegister json_Marshal p now s
       = (set_rooms (join p room)
            (go (GoSendInitialData p) (set_clients (λ cs, {[p]} ∪ cs) s)),
          Blocked) ∧
     p ∈ rooms (handleRegister json_Marshal p now s).1 !!! room ∧
     heap (handleRegister json_Marshal p now s).1 = heap s ∧
     ConnectedClients (handleRegister json_Marshal p now s).1
       = ConnectedClients s) ∧
  (room_keys c = [] →
     handleRegister json_Marshal p now s
       = (add_ConnectedClients 1
            (go (GoSendInitialData p) (set_clients (λ cs, {[p]} ∪ cs) s)),
          Ok tt)).
Proof.
  intros Hp. split.
  - intros room rest Hkeys Hm.
    change (is_Some (json_Marshal (joinMsg room (user c) now))) in Hm.
    assert (handleRegister json_Marshal p now s
            = (set_rooms (join p room)
                 (go (GoSendInitialData p) (set_clients (λ cs, {[p]} ∪ cs) s)),
               Blocked)) as Hrun.
    { unfold handleRegister. simpl. rewrite Hp, Hkeys. simpl.
      unfold broadcastToRoom_locked. by destruct Hm as [payload ->]. }
    rewrite Hrun. split; [done|]. simpl. split; [|done].
    rewrite join_lookup_total, decide_True by done.
    apply elem_of_union_l. by apply elem_of_singleton.
  - intros Hkeys. unfold handleRegister. simpl. by rewrite Hp, Hkeys.
Qed.

(** handleUnregister of a registered connection whose first room has an
    entry in the index and a leave event that json.Marshal encodes: the
    connection is taken out of h.clients, its queue is closed with its
    contents in place, it is taken out of the member set of that room,
    and then the handler waits for h.mu in broadcastToRoom while holding
    it: it never returns. No other connection has been touched and the
    gauge has not been decremented. A registered connection without a
    room is deregistered, its queue closed, and the handler returns. *)
Theorem handleUnregister_stops_at_first_event s p c now :
  p ∈ clients s →
  heap s !! p = Some c →
  closed (send c) = false →
  (∀ room rest members,
     room_keys c = room :: rest →
     rooms s !! room = Some members →
     is_Some (json_Marshal
                {| WS_Type := MessageTypeLeave; ChatRoom := room;
              Content := zero_string; WS_User := Some (user c);
              WS_Match := None; WS_Event := None; Timestamp := now;
              Error := zero_string; Data := zero_string |}) →
     (handleUnregister json_Marshal p now s).2 = Blocked ∧
     clients (handleUnregister json_Marshal p now s).1 = clients s ∖ {[p]} ∧
     rooms (handleUnregister json_Marshal p now s).1
       = leave p room members (rooms s) ∧
     (p ∉ rooms (handleUnregister json_Marshal p now s).1 !!! room) ∧
     queue_closed (handleUnregister json_Marshal p now s).1 p = true ∧
     queue (handleUnregister json_Marshal p now s).1 p = queue s p ∧
     (∀ q, q ≠ p →
        heap (handleUnregister json_Marshal p now s).1 !! q = heap s !! q) ∧
     ConnectedClients (handleUnregister json_Marshal p now s).1
       = ConnectedClients s) ∧
  (room_keys c = [] →
     (handleUnregister json_Marshal p now s).2 = Ok tt ∧
     clients (handleUnregister json_Marshal p now s).1 = clients s ∖ {[p]} ∧
     rooms (handleUnregister json_Marshal p now s).1 = rooms s ∧
     queue_closed (handleUnregister json_Marshal p now s).1 p = true ∧
     queue (handleUnregister json_Marshal p now s).1 p = queue s p ∧
     ConnectedClients (handleUnregister json_Marshal p now s).1
       = (ConnectedClients s - 1)%Z).
Proof.
  intros Hin Hp Hcl. split.
  - intros room rest members Hkeys Hr Hm.
    change (is_Some (json_Marshal (leaveMsg room (user c) now))) in Hm.
    unfold handleUnregister. rewrite bool_decide_true by done. simpl.
    rewrite Hp. unfold chan_close. rewrite Hcl, Hkeys. simpl. rewrite Hr.
    unfold broadcastToRoom_locked. destruct Hm as [payload ->]. simpl.
    unfold queue_closed, queue. simpl. rewrite lookup_insert_eq, Hp. simpl.
    split_and!; try done.
    + replace (leave p room members (rooms s))
        with (leave_room p (rooms s) room)
        by (unfold leave_room; by rewrite Hr).
      rewrite leave_room_lookup_total, decide_True by done.
      rewrite elem_of_difference, elem_of_singleton. by intros [_ ?].
    + intros q Hq. by rewrite lookup_insert_ne.
  - intros Hkeys. unfold handleUnregister. rewrite bool_decide_true by done.
    simpl. rewrite Hp. unfold chan_close. rewrite Hcl, Hkeys. simpl.
    unfold queue_closed, queue. simpl. rewrite lookup_insert_eq, Hp. simpl.
    split_and!; try done; lia.
Qed.

(** A connection is deregistered once: when handleUnregister has
    returned, a second handleUnregister of the same connection (the read
    pump and an eviction may both ask for it) returns at once, changes
    nothing and does not close the queue again. *)
Theorem handleUnregister_idempotent s p now now' s' :
  handleUnregister json_Marshal p now s = (s', Ok tt) →
  handleUnregister json_Marshal p now' s' = (s', Ok tt).
Proof.
  intros H. apply handleUnregister_absent.
  unfold handleUnregister in H. case_bool_decide as Hin; [|by simplify_eq].
  simpl in H. destruct (heap s !! p) as [c|]; [|done].
  destruct (chan_close (send c)) as [ch|]; [|done].
  set (s2 := set_heap _ _) in H.
  destruct (unregister_rooms_run json_Marshal p (user c) now (room_keys c) s2)
    as (_ & _ & _ & Hcl & _).
  destruct (unregister_rooms _ _ _ _ _ _) as [s3 [[]| |]]; simplify_eq.
  simpl in *. rewrite Hcl. simpl.
  rewrite elem_of_difference, elem_of_singleton. by intros [_ ?].
Qed.

(** *** What a broadcast does, admitted or refused *)

Lemma handleBroadcast_run s message now :
  members_open s →
  ∃ s', handleBroadcast json_Marshal message now s = Ok s' ∧
    same_index s s' ∧ matches s' = matches s ∧
    ConnectedClients s' = ConnectedClients s ∧
    if (checkRateLimit (ChatRoom message) now s).1
    then MessagesSent s' = (MessagesSent s + 1)%Z ∧
         ∃ evicted,
           spawned s' =
             spawned s
             ++ (if bool_decide (WS_Type message = MessageTypeChat)
                 then [GoPersistMessage message] else [])
             ++ (GoUnregister <$> evicted) ∧
           ∀ q, q ∈ evicted → q ∈ rooms s !!! ChatRoom message
    else MessagesSent s' = MessagesSent s ∧ spawned s' = spawned s ∧
         heap s' = heap s.
Proof.
  intros Hopen.
  unfold handleBroadcast.
  pose proof (checkRateLimit_frame (ChatRoom message) now s)
    as ([Hc Hr] & Hm & Hh & Hsp).
  assert (ConnectedClients (checkRateLimit (ChatRoom message) now s).2
          = ConnectedClients s ∧
          MessagesSent (checkRateLimit (ChatRoom message) now s).2
          = MessagesSent s) as [Hcc Hms]
    by (unfold checkRateLimit; by destruct (rate.Allow _ _)).
  destruct (checkRateLimit _ _ _) as [ok s1]. simpl in *.
  destruct ok; simpl; [|exists s1; by repeat split].
  set (s2 := if bool_decide _ then _ else s1).
  assert (rooms s2 = rooms s ∧ clients s2 = clients s ∧ heap s2 = heap s ∧
          matches s2 = matches s ∧ ConnectedClients s2 = ConnectedClients s ∧
          MessagesSent s2 = MessagesSent s ∧
          spawned s2 = spawned s ++
            (if bool_decide (WS_Type message = MessageTypeChat)
             then [GoPersistMessage message] else []))
    as (Hr2 & Hc2 & Hh2 & Hm2 & Hcc2 & Hms2 & Hsp2).
  { subst s2. case_bool_decide; simpl; rewrite ?app_nil_r;
      repeat split; congruence. }
  destruct (broadcastToRoom_at json_Marshal (ChatRoom message) message s2)
    as (s3 & Hrun & [[Hc3 Hr3] [Hm3 _]] & _ & _).
  { intros q Hq. unfold queue_closed. rewrite Hh2. rewrite Hr2 in Hq.
    by apply (Hopen (ChatRoom message)). }
  rewrite Hrun. simpl.
  apply broadcastToRoom_effects in Hrun as ([Hcc3 Hms3] & evicted & Hsp3 & Hev).
  eexists. split; [done|]. simpl.
  split; [split; simpl; congruence|]. split; [congruence|]. split; [congruence|].
  split; [congruence|]. exists evicted. split.
  - rewrite Hsp3, Hsp2. by rewrite <-app_assoc.
  - intros q Hq. rewrite <-Hr2. by apply Hev.
Qed.

(** A message handled by the coordinator, in any hub whose index is
    consistent (as it is whenever the coordinator is in its loop): the
    handler runs to its end and leaves the index, the cache and the
    gauge alone. A message that the room's limiter refuses changes
    nothing but the limiter table: it is not counted, not persisted and
    reaches no queue. An admitted message is counted once and starts one
    persistence task exactly when its type is chat, followed only by
    deregistrations of members of its room. *)
Theorem handleBroadcast_effects s message now :
  Inv s →
  ∃ s', handleBroadcast json_Marshal message now s = Ok s' ∧
    same_index s s' ∧ matches s' = matches s ∧
    ConnectedClients s' = ConnectedClients s ∧
    if (checkRateLimit (ChatRoom message) now s).1
    then MessagesSent s' = (MessagesSent s + 1)%Z ∧
         ∃ evicted,
           spawned s' =
             spawned s
             ++ (if bool_decide (WS_Type message = MessageTypeChat)
                 then [GoPersistMessage message] else [])
             ++ (GoUnregister <$> evicted) ∧
           ∀ q, q ∈ evicted → q ∈ rooms s !!! ChatRoom message
    else MessagesSent s' = MessagesSent s ∧ spawned s' = spawned s ∧
         heap s' = heap s.
Proof.
  intros HI. apply handleBroadcast_run. by apply Inv_members_open.
Qed.

(** *** A deregistered connection is left alone *)

Lemma handleBroadcast_nonmember s p message now s' :
  members_open s → (∀ r, p ∉ rooms s !!! r) →
  handleBroadcast json_Marshal message now s = Ok s' →
  heap s' !! p = heap s !! p.
Proof.
  intros Hopen Hnr. unfold handleBroadcast.
  pose proof (checkRateLimit_frame (ChatRoom message) now s)
    as ([Hc Hr] & _ & Hh & _).
  destruct (checkRateLimit _ _ _) as [ok s1]. simpl in *.
  destruct ok; simpl; [|intros [= <-]; by rewrite Hh].
  set (s2 := if bool_decide _ then _ else s1).
  assert (rooms s2 = rooms s ∧ heap s2 = heap s) as [Hr2 Hh2]
    by (subst s2; case_bool_decide; simpl; split; congruence).
  destruct (broadcastToRoom_at json_Marshal (ChatRoom message) message s2)
    as (s3 & Hrun & _ & _ & Hheap).
  { intros q Hq. unfold queue_closed. rewrite Hh2. rewrite Hr2 in Hq.
    by apply (Hopen (ChatRoom message)). }
  rewrite Hrun. simpl. intros [= <-]. simpl. rewrite Hheap, Hh2.
  destruct (json_Marshal message); [|done].
  rewrite decide_False; [done|]. rewrite Hr2. apply Hnr.
Qed.

(** Once a connection is not registered (it was deregistered, or never
    registered), no handler of the coordinator touches it again: a
    broadcast, and the registration or deregistration of another
    connection, however it ends, leave its Client as it is, its queue
    included. *)
Theorem deregistered_left_alone s p :
  Inv s →
  p ∉ clients s →
  (∀ message now s',
     handleBroadcast json_Marshal message now s = Ok s' →
     heap s' !! p = heap s !! p) ∧
  (∀ p' now,
     p' ≠ p →
     heap (handleUnregister json_Marshal p' now s).1 !! p = heap s !! p) ∧
  (∀ p' c now,
     p' ≠ p → heap s !! p' = None →
     heap (handleRegister json_Marshal p' now (set_heap (<[p' := c]>) s)).1 !! p
       = heap s !! p).
Proof.
  intros HI Hout.
  assert (∀ r, p ∉ rooms s !!! r) as Hnr.
  { intros r Hr. apply (inv_members s HI) in Hr as [Hr _]. done. }
  pose proof (Inv_members_open s HI) as Hopen.
  split; [|split].
  - intros message now s'. by apply handleBroadcast_nonmember.
  - intros p' now Hne.
    destruct (decide (p' ∈ clients s)) as [Hin|Hnin].
    + destruct (inv_open s HI p' Hin) as [[c Hc] Hcl].
      unfold queue_closed in Hcl. rewrite Hc in Hcl.
      destruct (handleUnregister_run json_Marshal p' c now s Hin Hc Hcl)
        as (_ & _ & _ & _ & _ & _ & _ & Hh & _).
      rewrite Hh. by rewrite lookup_insert_ne.
    + by rewrite handleUnregister_absent.
  - intros p' c now Hne Hp'.
    destruct (handleRegister_run json_Marshal p' c now
                (set_heap (<[p' := c]>) s))
      as (_ & _ & _ & _ & _ & _ & _ & Hh & _).
    { simpl. by rewrite lookup_insert_eq. }
    rewrite Hh. simpl. by rewrite lookup_insert_ne.
Qed.

(** *** The metrics *)







End handler_facts.

(** ** The initial-data task *)

Section initial_data_facts.

Context {Payload : Type}.
Variable json_Marshal : WSMessage → option Payload.
Implicit Types (s : @State Payload) (c : @Client Payload).
Implicit Types (p q : ptr) (r room : string).

Lemma only_appends_refl p s : only_appends p s s.
Proof. repeat split; try done. exists []. by rewrite app_nil_r. Qed.

Lemma only_appends_trans p s1 s2 s3 :
  only_appends p s1 s2 → only_appends p s2 s3 → only_appends p s1 s3.
Proof.
  intros (Hh & [? ?] & Hs & Ho & Hc & l & Hq) (Hh' & [? ?] & Hs' & Ho' & Hc' & l' & Hq').
  split; [by eapply same_hub_trans|]. split; [split; congruence|].
  split; [congruence|]. split; [intros q Hne; by rewrite Ho', Ho|].
  split; [congruence|]. exists (l ++ l'). by rewrite Hq', Hq, app_assoc.
Qed.

Lemma only_appends_sent p c payload ch s :
  heap s !! p = Some c → chan_send (send c) payload = Sent ch →
  only_appends p s (set_heap (<[p := set_send c ch]>) s).
Proof.
  intros Hp Hsend. apply chan_send_Sent in Hsend as (Hcl & _ & ->).
  repeat split; try done.
  - intros q Hne. simpl. by rewrite lookup_insert_ne.
  - unfold queue_closed. simpl. by rewrite lookup_insert_eq, Hp.
  - exists [payload]. unfold queue. simpl. by rewrite lookup_insert_eq, Hp.
Qed.

Lemma send_blocking_only_appends p payload s s' :
  send_blocking p payload s = Ok s' → only_appends p s s'.
Proof.
  unfold send_blocking. intros H. apply bind_Ok in H as (c & Hc & H).
  apply deref_Ok in Hc.
  destruct (chan_send (send c) payload) as [ch| |] eqn:E; simplify_eq.
  by apply (only_appends_sent p c payload).
Qed.

Lemma send_history_only_appends p room msgs s s' b :
  send_history json_Marshal p room msgs s = Ok (s', b) → only_appends p s s'.
Proof.
  revert s. induction msgs as [|msg msgs IH]; intros s H; simpl in H.
  - simplify_eq. apply only_appends_refl.
  - destruct (json_Marshal (historyMsg room msg)) as [payload|]; [|by apply IH].
    apply bind_Ok in H as (c & Hc & H). apply deref_Ok in Hc.
    destruct (chan_send (send c) payload) as [ch| |] eqn:E; simplify_eq.
    + eapply only_appends_trans;
        [by apply (only_appends_sent p c payload) | by apply IH].
    + apply only_appends_refl.
Qed.

Lemma initial_rooms_only_appends get p now rs s s' :
  initial_rooms json_Marshal get p now rs s = Ok s' → only_appends p s s'.
Proof.
  revert s. induction rs as [|room rs IH]; intros s H; simpl in H.
  - simplify_eq. apply only_appends_refl.
  - destruct (get room) as [messages|]; [|by apply IH].
    apply bind_Ok in H as ([s1 returned] & H1 & H).
    apply send_history_only_appends in H1.
    destruct returned; [by simplify_eq|].
    apply bind_Ok in H as (s2 & H2 & H). apply IH in H.
    eapply only_appends_trans; [exact H1|].
    eapply only_appends_trans; [|exact H].
    destruct (matches s1 !! room) as [m|];
      [|simplify_eq; apply only_appends_refl].
    destruct (json_Marshal (matchMsg room m now)) as [payload|];
      [|simplify_eq; apply only_appends_refl].
    by apply (send_blocking_only_appends p payload).
Qed.

(** sendInitialData only reads the hub: when it runs to its end, the
    index, the cache, the limiters, the metrics and the started tasks
    are as before, no other connection is touched, and the queue of its
    own connection has only grown at its tail. *)
Theorem sendInitialData_only_appends get p now s s' :
  sendInitialData json_Marshal get p now s = Ok s' →
  same_hub s s' ∧ same_counters s s' ∧ spawned s' = spawned s ∧
  (∀ q, q ≠ p → heap s' !! q = heap s !! q) ∧
  queue_closed s' p = queue_closed s p ∧
  ∃ l, queue s' p = queue s p ++ l.
Proof.
  unfold sendInitialData. intros H. apply bind_Ok in H as (c & _ & H).
  by apply initial_rooms_only_appends in H.
Qed.

(** *** The history of one room *)

Lemma send_history_spec p room msgs s c :
  heap s !! p = Some c → closed (send c) = false →
  ∃ s', send_history json_Marshal p room msgs s
        = Ok (s', bool_decide
                    (slots s p < length (omap (λ msg, json_Marshal (historyMsg room msg)) msgs))) ∧
    queue s' p =
      queue s p ++ take (slots s p)
                        (omap (λ msg, json_Marshal (historyMsg room msg)) msgs) ∧
    slots s' p =
      slots s p - length (omap (λ msg, json_Marshal (historyMsg room msg)) msgs) ∧
    queue_closed s' p = false ∧ is_Some (heap s' !! p) ∧
    only_appends p s s'.
Proof.
  revert s c. induction msgs as [|msg msgs IH]; intros s c Hp Hcl.
  - exists s. simpl. rewrite take_nil, app_nil_r. unfold queue_closed.
    rewrite Hp. split_and!; try done; try lia; try eauto.
    apply only_appends_refl.
  - rewrite omap_cons_match. simpl.
    destruct (json_Marshal (historyMsg room msg)) as [payload|] eqn:Hm;
      [|by apply (IH s c)].
    rewrite (deref_Some _ _ _ Hp). simpl. rewrite chan_send_open by done.
    assert (Hslots : slots s p = cap (send c) - length (buf (send c)))
      by (unfold slots; by rewrite Hp).
    assert (Hqueue : queue s p = buf (send c)) by (unfold queue; by rewrite Hp).
    case_bool_decide as Hfree.
    + set (c1 := set_send c _). set (s1 := set_heap _ s).
      assert (heap s1 !! p = Some c1) as Hp1
        by (subst s1; simpl; by rewrite lookup_insert_eq).
      destruct (IH s1 c1 Hp1) as (s' & Hrun & Hq & Hsl & Hc' & Hsome & Happ);
        [done|].
      assert (slots s1 p = slots s p - 1) as Hs1.
      { unfold slots. rewrite Hp1, Hp. subst c1. simpl. rewrite length_app.
        simpl. lia. }
      assert (queue s1 p = queue s p ++ [payload]) as Hq1.
      { unfold queue. rewrite Hp1, Hp. done. }
      exists s'. rewrite Hrun. split.
      * f_equal. f_equal. apply bool_decide_ext. simpl. lia.
      * rewrite Hq, Hq1, Hs1, Hsl, Hs1. simpl.
        destruct (slots s p) as [|n] eqn:En; [lia|]. simpl.
        rewrite Nat.sub_0_r, <-app_assoc. simpl.
        split_and!; try done; try lia.
        eapply only_appends_trans; [|exact Happ].
        apply (only_appends_sent p c payload); [done|].
        rewrite chan_send_open by done. by rewrite bool_decide_true.
    + exists s. assert (slots s p = 0) as -> by lia. simpl.
      rewrite app_nil_r. unfold queue_closed. rewrite Hp.
      split_and!; try done; try eauto. apply only_appends_refl.
Qed.

(** The history of a room that does not fit in the queue: the connection
    gets the first messages that fit, in the order of the store, and
    sendInitialData returns at once: no match snapshot, none of the
    rooms that follow, and the connection is not deregistered. *)
Theorem sendInitialData_history_overflow get p now s c room rs messages :
  heap s !! p = Some c →
  closed (send c) = false →
  room_keys c = room :: rs →
  get room = Some messages →
  slots s p < length (omap (λ msg, json_Marshal (historyMsg room msg)) messages) →
  ∃ s', sendInitialData json_Marshal get p now s = Ok s' ∧
    queue s' p =
      queue s p ++ take (slots s p)
                        (omap (λ msg, json_Marshal (historyMsg room msg)) messages) ∧
    slots s' p = 0 ∧ queue_closed s' p = false ∧ spawned s' = spawned s.
Proof.
  intros Hp Hcl Hkeys Hget Hover.
  unfold sendInitialData. rewrite (deref_Some _ _ _ Hp). simpl.
  rewrite Hkeys. simpl. rewrite Hget.
  destruct (send_history_spec p room messages s c Hp Hcl)
    as (s' & Hrun & Hq & Hsl & Hc' & _ & Happ).
  rewrite Hrun. simpl. rewrite bool_decide_true by done.
  exists s'. split_and!; try done; [lia|]. apply Happ.
Qed.

(** A room whose history fits in the queue: the history goes first, in
    the order of the store, then the cached match of the room, if there
    is one that marshals, by a blocking send: the task is parked there
    when the history has taken the last slot. The task then goes on with
    the rooms that follow. *)
Theorem sendInitialData_room_then_snapshot get p now s c room rs messages :
  heap s !! p = Some c →
  closed (send c) = false →
  get room = Some messages →
  length (omap (λ msg, json_Marshal (historyMsg room msg)) messages) ≤ slots s p →
  match matches s !! room ≫= (λ m, json_Marshal (matchMsg room m now)) with
  | Some snapshot =>
      if bool_decide
           (length (omap (λ msg, json_Marshal (historyMsg room msg)) messages)
            < slots s p)
      then ∃ s2,
        initial_rooms json_Marshal get p now (room :: rs) s
          = initial_rooms json_Marshal get p now rs s2 ∧
        queue s2 p =
          queue s p ++ omap (λ msg, json_Marshal (historyMsg room msg)) messages
                  ++ [snapshot] ∧
        only_appends p s s2
      else initial_rooms json_Marshal get p now (room :: rs) s = Blocked
  | None =>
      ∃ s2,
        initial_rooms json_Marshal get p now (room :: rs) s
          = initial_rooms json_Marshal get p now rs s2 ∧
        queue s2 p =
          queue s p ++ omap (λ msg, json_Marshal (historyMsg room msg)) messages ∧
        only_appends p s s2
  end.
Proof.
  intros Hp Hcl Hget Hfit. simpl. rewrite Hget.
  destruct (send_history_spec p room messages s c Hp Hcl)
    as (s1 & Hrun & Hq & Hsl & Hc1 & [c1 Hp1] & Happ).
  rewrite Hrun. simpl. clear Hrun.
  rewrite (bool_decide_false (slots s p < length _)) by lia.
  rewrite take_ge in Hq by done.
  assert (matches s1 = matches s) as -> by apply Happ.
  unfold queue_closed in Hc1. rewrite Hp1 in Hc1.
  destruct (matches s !! room) as [m|]; simpl.
  2:{ exists s1. by split_and!. }
  destruct (json_Marshal (matchMsg room m now)) as [snapshot|]; simpl.
  2:{ exists s1. by split_and!. }
  rewrite (send_blocking_spec p snapshot s1 c1) by done.
  assert (queue_full s1 p = bool_decide (slots s1 p = 0)) as ->.
  { unfold queue_full, slots. rewrite Hp1. apply bool_decide_ext. lia. }
  case_bool_decide as Hlen.
  - rewrite bool_decide_false by lia. simpl.
    eexists. split; [done|]. split.
    + unfold queue at 1. simpl. rewrite lookup_insert_eq.
      rewrite buf_push by done. rewrite bool_decide_false.
      * assert (buf (send c1) = queue s1 p) as ->
          by (unfold queue; by rewrite Hp1).
        by rewrite Hq, <-app_assoc.
      * unfold slots in Hsl at 1. rewrite Hp1 in Hsl. lia.
    + eapply only_appends_trans; [exact Happ|].
      pose proof (send_blocking_only_appends p snapshot s1) as H.
      rewrite (send_blocking_spec p snapshot s1 c1) in H by done.
      assert (queue_full s1 p = false) as Hnf.
      { unfold queue_full. rewrite Hp1. apply bool_decide_eq_false.
        unfold slots in Hsl at 1. rewrite Hp1 in Hsl. lia. }
      rewrite Hnf in H. by apply H.
  - by rewrite bool_decide_true by lia.
Qed.

End initial_data_facts.

(** ** The life of a queue *)

Section queue_facts.

Context {Payload : Type}.
Variable json_Marshal : WSMessage → option Payload.
Variable json_Unmarshal : Payload → option WSMessage.
Implicit Types (s : @State Payload) (c : @Client Payload).
Implicit Types (σ : @System Payload).
Implicit Types (p q : ptr) (r room : string).

(** *** The write pump *)

(** The write pump of a connection that the coordinator deregisters:
    handleUnregister closes the queue with its contents in place before
    it reaches any broadcastToRoom, so, however the handler ends, what
    was queued before the close is still written, as one text message in
    the order of the queue, then the close message is written and the
    pump ends. Nothing reaches the leaver after the close. *)
Theorem writePump_flushes_then_closes s p c now :
  p ∈ clients s →
  heap s !! p = Some c →
  closed (send c) = false →
  (queue s p = [] →
   ∀ nw cl,
     writePump_recv nw cl p (handleUnregister json_Marshal p now s).1
       = Some ((handleUnregister json_Marshal p now s).1,
               [CloseMessage], false)) ∧
  (queue s p ≠ [] →
   ∃ s1,
     (∀ cl, writePump_recv true cl p (handleUnregister json_Marshal p now s).1
            = Some (s1, [TextMessage (queue s p)], cl)) ∧
     ∀ nw cl, writePump_recv nw cl p s1 = Some (s1, [CloseMessage], false)).
Proof.
  intros Hin Hp Hcl.
  destruct (handleUnregister_run json_Marshal p c now s Hin Hp Hcl)
    as (visited & rest & _ & _ & _ & _ & _ & Hh & _).
  unfold writePump_recv. rewrite Hh, lookup_insert_eq. simpl.
  unfold queue. rewrite Hp. split.
  - by intros ->.
  - intros Hne. destruct (buf (send c)) as [|message queued]; [done|].
    eexists. split; [done|]. intros nw cl. simpl.
    by rewrite lookup_insert_eq.
Qed.

(** Two messages that the coordinator handles one after the other, both
    admitted by the limiters of their rooms, for a member of both rooms
    whose queue has two free slots: the write pump of the member writes
    what was queued, then the first message, then the second, in one
    text message, and leaves the queue empty and open. *)
Theorem broadcasts_written_in_order s m1 m2 pl1 pl2 t1 t2 q :
  Inv s →
  json_Marshal m1 = Some pl1 →
  json_Marshal m2 = Some pl2 →
  q ∈ rooms s !!! ChatRoom m1 →
  q ∈ rooms s !!! ChatRoom m2 →
  2 ≤ slots s q →
  (checkRateLimit (ChatRoom m1) t1 s).1 = true →
  ∃ s1, handleBroadcast json_Marshal m1 t1 s = Ok s1 ∧
    ((checkRateLimit (ChatRoom m2) t2 s1).1 = true →
     ∃ s2, handleBroadcast json_Marshal m2 t2 s1 = Ok s2 ∧
       ∀ cl, ∃ s3,
         writePump_recv true cl q s2
           = Some (s3, [TextMessage (queue s q ++ [pl1; pl2])], cl) ∧
         queue s3 q = [] ∧ queue_closed s3 q = false).
Proof.
  intros HI Hpl1 Hpl2 Hq1 Hq2 Hslots Hok1.
  pose proof (Inv_members_open s HI) as Hopen.
  destruct (handleBroadcast_admitted json_Marshal m1 pl1 t1 s Hopen Hok1 Hpl1)
    as (s1 & Hrun1 & [_ Hr1] & Hheap1 & _).
  exists s1. split; [done|]. intros Hok2.
  assert (members_open s1) as Hopen1.
  { apply handleBroadcast_frame in Hrun1 as (Hi & _ & Hh).
    by apply (members_open_ext s s1). }
  destruct (handleBroadcast_admitted json_Marshal m2 pl2 t2 s1 Hopen1 Hok2 Hpl2)
    as (s2 & Hrun2 & _ & Hheap2 & _).
  exists s2. split; [done|]. intros cl.
  specialize (Hheap1 q). rewrite decide_True in Hheap1 by done.
  specialize (Hheap2 q). rewrite decide_True in Hheap2 by (by rewrite Hr1).
  destruct (Hopen _ _ Hq1) as [_ Hcl].
  destruct (queue_pushed s s1 q pl1 Hheap1 Hcl) as (Hqa & Hsa & Hca).
  destruct (queue_pushed s1 s2 q pl2 Hheap2 Hca) as (Hqb & _ & Hcb).
  rewrite bool_decide_true in Hqa, Hsa by lia.
  rewrite bool_decide_true in Hqb by lia.
  rewrite Hqa, <-app_assoc in Hqb. simpl in Hqb.
  unfold queue in Hqb at 1. unfold queue_closed in Hcb.
  unfold writePump_recv.
  destruct (heap s2 !! q) as [c2|] eqn:Hc2.
  2:{ by destruct (queue s q). }
  rewrite Hqb. destruct (queue s q) as [|x l]; simpl;
    (eexists; split; [done|]); unfold queue, queue_closed; simpl;
    by rewrite lookup_insert_eq.
Qed.

(** *** The read pump and the persistence task *)

(** Whatever a frame carries in its user and timestamp fields, the
    message that the read pump sends on h.broadcast has the user of the
    connection and the time of the server, and is for a room that the
    room set of the connection grants; the frame has taken a token of
    the connection's limiter and has left the queue alone. The row that
    persistMessage stores for it is filed under the identifier of the
    connection's user, with the server's time. *)
Theorem readPump_frame_submits_own s p c frame now s' msg :
  heap s !! p = Some c →
  readPump_frame json_Marshal json_Unmarshal p frame now s = Ok (s', Some msg) →
  (∃ m, json_Unmarshal frame = Some m ∧ WS_Type msg = WS_Type m ∧
        ChatRoom msg = ChatRoom m ∧ Content msg = Content m) ∧
  WS_User msg = Some (user c) ∧ Timestamp msg = now ∧
  c_rooms c !! ChatRoom msg = Some true ∧
  (rate.Allow now (limiter c)).1 = true ∧
  heap s' !! p = Some (set_limiter c (rate.Allow now (limiter c)).2) ∧
  queue s' p = queue s p ∧
  persistMessage msg =
    Ok {| ChatRoomID := ChatRoom msg; UserID := User_ID (user c);
          Row_Content := Content msg; MessageType := MessageTypeChat;
          Row_CreatedAt := now |}.
Proof.
  intros Hp H. unfold readPump_frame in H.
  rewrite (deref_Some _ _ _ Hp) in H. simpl in H.
  destruct (json_Unmarshal frame) as [m|]; [|done].
  destruct (rate.Allow now (limiter c)) as [ok lim]. simpl.
  destruct ok; simpl in H.
  2:{ by apply bind_Ok in H as (s2 & _ & [= _ ?]). }
  destruct (canAccessRoom c (ChatRoom m)) eqn:Hacc; simpl in H.
  2:{ by apply bind_Ok in H as (s2 & _ & [= _ ?]). }
  injection H as <- <-. simpl. split; [by exists m|].
  unfold canAccessRoom in Hacc.
  destruct (c_rooms c !! ChatRoom m) as [[]|] eqn:Hroom; try done.
  unfold queue. simpl. rewrite lookup_insert_eq, Hp. by split_and!.
Qed.

End queue_facts.

(** ** The match cache *)

Section cache_facts.

Context {Payload : Type}.
Variable json_Marshal : WSMessage → option Payload.
Variable json_Unmarshal : Payload → option WSMessage.
Implicit Types (s : @State Payload) (c : @Client Payload).
Implicit Types (p q : ptr) (r room : string).

Lemma update_matches_cache now ms s :
  (∀ k, is_Some (matches s !! k) →
        is_Some (matches (update_matches now ms s).1 !! k)) ∧
  (∀ m, m ∈ ms → is_Some (matches (update_matches now ms s).1 !! ID m)) ∧
  (∀ k m, matches (update_matches now ms s).1 !! k = Some m →
          matches s !! k = Some m ∨ (m ∈ ms ∧ ID m = k)) ∧
  (∀ msg, msg ∈ (update_matches now ms s).2 →
          ∃ m, m ∈ ms ∧ msg = updateMsg m now) ∧
  length (update_matches now ms s).2 ≤ length ms.
Proof.
  revert s. induction ms as [|m ms IH]; intros s.
  - simpl. split_and!; try done; try (intros ? []%elem_of_nil); auto.
  - simpl. destruct (needs_broadcast (matches s) m) eqn:Hneeds.
    + destruct (IH (set_matches (<[ID m := m]>) s))
        as (Hkeep & Hall & Hfrom & Hout & Hlen).
      destruct (update_matches now ms _) as [s2 out]. simpl in *.
      split_and!.
      * intros k Hk. apply Hkeep.
        destruct (decide (ID m = k)) as [<-|Hne].
        -- rewrite lookup_insert_eq. eauto.
        -- by rewrite lookup_insert_ne.
      * intros m' [->|Hm']%elem_of_cons; [|by apply Hall].
        apply Hkeep. rewrite lookup_insert_eq. eauto.
      * intros k m' Hk. apply Hfrom in Hk as [Hk|[Hin Hid]].
        -- destruct (decide (ID m = k)) as [<-|Hne].
           ++ rewrite lookup_insert_eq in Hk. injection Hk as <-.
              right. split; [apply list_elem_of_here | done].
           ++ rewrite lookup_insert_ne in Hk by done. by left.
        -- right. split; [by apply list_elem_of_further | done].
      * intros msg [->|Hmsg]%elem_of_cons.
        -- exists m. split; [apply list_elem_of_here | done].
        -- apply Hout in Hmsg as (m' & Hm' & ->).
           exists m'. split; [by apply list_elem_of_further | done].
      * lia.
    + destruct (IH s) as (Hkeep & Hall & Hfrom & Hout & Hlen).
      split_and!.
      * done.
      * intros m' [->|Hm']%elem_of_cons; [|by apply Hall].
        apply Hkeep. unfold needs_broadcast in Hneeds.
        destruct (matches s !! ID m); [eauto | done].
      * intros k m' Hk. apply Hfrom in Hk as [Hk|[Hin Hid]]; [by left|].
        right. split; [by apply list_elem_of_further | done].
      * intros msg Hmsg. apply Hout in Hmsg as (m' & Hm' & ->).
        exists m'. split; [by apply list_elem_of_further | done].
      * lia.
Qed.

(** One poll, whatever the store returns (identifiers may repeat): the
    cache never loses an entry, every match that was fetched has an
    entry afterwards, an entry that is new or changed holds a fetched
    match under that match's identifier, and every message sent on
    h.broadcast is the update event of a fetched match, at most one for
    each. The index, the limiters and the connections are not touched. *)
Theorem poll_cache_grows s ms now :
  (∀ k, is_Some (matches s !! k) →
        is_Some (matches (fetchMatchUpdates (Some ms) now s).1 !! k)) ∧
  (∀ m, m ∈ ms →
        is_Some (matches (fetchMatchUpdates (Some ms) now s).1 !! ID m)) ∧
  (∀ k m, matches (fetchMatchUpdates (Some ms) now s).1 !! k = Some m →
          matches s !! k = Some m ∨ (m ∈ ms ∧ ID m = k)) ∧
  (∀ msg, msg ∈ (fetchMatchUpdates (Some ms) now s).2 →
          ∃ m, m ∈ ms ∧ msg = updateMsg m now) ∧
  length (fetchMatchUpdates (Some ms) now s).2 ≤ length ms ∧
  same_index s (fetchMatchUpdates (Some ms) now s).1 ∧
  roomLimiters (fetchMatchUpdates (Some ms) now s).1 = roomLimiters s ∧
  heap (fetchMatchUpdates (Some ms) now s).1 = heap s.
Proof.
  simpl. destruct (update_matches_cache now ms s) as (H1 & H2 & H3 & H4 & H5).
  destruct (update_matches_frame now ms s) as (H6 & H7 & H8).
  by split_and!.
Qed.


Lemma reachable_cache_keyed_by_id σ :
  reachable json_Marshal json_Unmarshal σ → cache_keyed_by_id (hub σ).
Proof.
  induction 1 as [ |σ p c now s' ending _ IH Hrun Hp Hfresh H _
                   |σ p _ IH Hp
                   |σ p now s' ending _ IH Hrun _ H _
                   |σ message now s' _ IH Hrun H
                   |σ fetched now _ IH
                   |σ get p now s' _ IH _ H
                   |σ p frame now s' submitted _ IH _ H
                   |σ p _ IH]; unfold cache_keyed_by_id in *; simpl.
  - intros k m. by rewrite lookup_empty.
  - destruct (handleRegister_run json_Marshal p c now
                (set_heap (<[p := c]>) (hub σ)))
      as (visited & rest & _ & _ & _ & Hm & _).
    { simpl. by rewrite lookup_insert_eq. }
    rewrite H in Hm. simpl in Hm. by rewrite Hm.
  - done.
  - assert (matches s' = matches (hub σ)) as ->; [|done].
    unfold handleUnregister in H. case_bool_decide; [|by simplify_eq].
    simpl in H. destruct (heap (hub σ) !! p) as [c|]; [|by simplify_eq].
    destruct (chan_close (send c)) as [ch|]; [|by simplify_eq].
    set (s2 := set_heap _ _) in H.
    destruct (unregister_rooms_run json_Marshal p (user c) now (room_keys c) s2)
      as (visited & rest & _ & _ & _ & (Hm & _) & _).
    destruct (unregister_rooms _ _ _ _ _ _) as [s3 [[]| |]]; by simplify_eq.
  - apply handleBroadcast_frame in H as (_ & -> & _). exact IH.
  - destruct fetched as [ms|]; [|done]. simpl. intros k m Hk.
    destruct (update_matches_cache now ms (hub σ)) as (_ & _ & Hfrom & _).
    apply Hfrom in Hk as [Hk|[_ Hid]]; [by apply IH | done].
  - apply sendInitialData_frame in H as [[_ [-> _]] _]. exact IH.
  - apply readPump_frame_frame in H as [[_ [-> _]] _]. exact IH.
  - pose proof (writePump_drain_frame p (hub σ)) as [[_ [-> _]] _]. exact IH.
Qed.

(** In every state the system can reach, a cached match is filed under
    its own identifier: the snapshot that sendInitialData sends for a
    room is the match of that room. *)
Theorem cache_entry_is_room_match σ room m :
  reachable json_Marshal json_Unmarshal σ →
  matches (hub σ) !! room = Some m →
  ID m = room.
Proof. intros Hreach. by apply reachable_cache_keyed_by_id. Qed.

(** The update events of the poller carry no user, so persistMessage
    would dereference nil on them; the coordinator never starts it for
    them: handling such an event, in any hub whose index is consistent
    (as it is whenever the coordinator is in its loop), starts no
    persistence task. *)
Theorem poller_events_not_persisted s0 ms now message s t :
  message ∈ (fetchMatchUpdates (Some ms) now s0).2 →
  Inv s →
  persistMessage message = Panic ∧
  ∃ s', handleBroadcast json_Marshal message t s = Ok s' ∧
    ∀ m, GoPersistMessage m ∈ spawned s' → GoPersistMessage m ∈ spawned s.
Proof.
  intros Hmsg HI. simpl in Hmsg.
  destruct (update_matches_cache now ms s0) as (_ & _ & _ & Hout & _).
  apply Hout in Hmsg as (m0 & _ & ->). split; [done|].
  destruct (handleBroadcast_run json_Marshal s (updateMsg m0 now) t
              (Inv_members_open s HI))
    as (s' & Hrun & _ & _ & _ & Hrest).
  exists s'. split; [done|]. intros m Hm.
  destruct (checkRateLimit _ _ _).1.
  - destruct Hrest as (_ & evicted & Hsp & _). rewrite Hsp in Hm.
    rewrite bool_decide_false in Hm by done. simpl in Hm.
    apply elem_of_app in Hm as [Hm|Hm]; [done|].
    by apply list_elem_of_fmap in Hm as (q & ? & _).
  - destruct Hrest as (_ & Hsp & _). by rewrite Hsp in Hm.
Qed.

End cache_facts.

(** ** The limiters of the rooms *)

Lemma room_admissions_limiter {Payload : Type} room times (s : @State Payload) :
  room_admissions room times s =
  limiter_admissions times
    (default (rate.NewLimiter (rate.Every rate.Second) 10)
             (roomLimiters s !! room)).
Proof.
  revert s. induction times as [|now times IH]; intros s; [done|].
  simpl. unfold checkRateLimit.
  set (lim := match roomLimiters s !! room with
              | Some lim => lim
              | None => rate.NewLimiter (rate.Every rate.Second) 10
              end).
  assert (default (rate.NewLimiter (rate.Every rate.Second) 10)
                  (roomLimiters s !! room) = lim) as ->
    by (subst lim; by destruct (roomLimiters s !! room)).
  destruct (rate.Allow now lim) as [ok lim']. rewrite IH. simpl.
  by rewrite lookup_insert_eq.
Qed.

Section limiter_facts.

Context {Payload : Type}.
Variable json_Marshal : WSMessage → option Payload.
Variable json_Unmarshal : Payload → option WSMessage.
Implicit Types (s : @State Payload) (c : @Client Payload).
Implicit Types (σ : @System Payload).
Implicit Types (p q : ptr) (r room : string).

Lemma checkRateLimit_limiters room now s :
  roomLimiters (checkRateLimit room now s).2
  = <[room := (rate.Allow now
                 (default (rate.NewLimiter (rate.Every rate.Second) 10)
                          (roomLimiters s !! room))).2]> (roomLimiters s).
Proof.
  unfold checkRateLimit. destruct (roomLimiters s !! room) as [lim|]; simpl;
    by destruct (rate.Allow now _).
Qed.

Lemma handleBroadcast_limiters message now s s' :
  handleBroadcast json_Marshal message now s = Ok s' →
  roomLimiters s' = roomLimiters (checkRateLimit (ChatRoom message) now s).2.
Proof.
  unfold handleBroadcast. destruct (checkRateLimit _ _ _) as [ok s1]. simpl.
  destruct ok; simpl; [|by intros [= <-]].
  intros H. apply bind_Ok in H as (s3 & H & [= <-]).
  apply broadcastToRoom_frame in H as [[_ [_ Hl]] _]. simpl. rewrite Hl.
  by case_bool_decide.
Qed.

Lemma room_admissions_ext room times s s' :
  roomLimiters s' !! room = roomLimiters s !! room →
  room_admissions room times s' = room_admissions room times s.
Proof. intros H. by rewrite !room_admissions_limiter, H. Qed.

(** The limiters of the rooms are independent: a message handled for
    one room, admitted or refused, leaves the decisions that the
    limiter of any other room will take as they were. *)
Theorem room_limiters_independent s message now s' r times :
  handleBroadcast json_Marshal message now s = Ok s' →
  ChatRoom message ≠ r →
  room_admissions r times s' = room_admissions r times s.
Proof.
  intros H Hne. apply room_admissions_ext.
  rewrite (handleBroadcast_limiters _ _ _ _ H), checkRateLimit_limiters.
  by rewrite lookup_insert_ne.
Qed.

End limiter_facts.

(** ** The tasks of a connection *)

Section task_facts.

Context {Payload : Type}.
Variable json_Marshal : WSMessage → option Payload.
Variable json_Unmarshal : Payload → option WSMessage.
Implicit Types (s : @State Payload) (c : @Client Payload).
Implicit Types (σ : @System Payload).
Implicit Types (p q : ptr) (r room : string).

Lemma initial_rooms_no_panic get p now rs s c :
  heap s !! p = Some c → closed (send c) = false →
  initial_rooms json_Marshal get p now rs s ≠ Panic.
Proof.
  revert s c. induction rs as [|room rs IH]; intros s c Hp Hcl; simpl; [done|].
  destruct (get room) as [messages|]; [|by eapply IH].
  destruct (send_history_spec json_Marshal p room messages s c Hp Hcl)
    as (s1 & Hrun & _ & _ & Hc1 & [c1 Hp1] & _).
  rewrite Hrun. simpl. destruct (bool_decide _); [done|].
  unfold queue_closed in Hc1. rewrite Hp1 in Hc1.
  destruct (matches s1 !! room) as [m|]; simpl; [|by eapply IH].
  destruct (json_Marshal (matchMsg room m now)) as [payload|]; simpl;
    [|by eapply IH].
  rewrite (send_blocking_spec p payload s1 c1) by done.
  destruct (queue_full s1 p); [done|]. simpl.
  eapply IH; [simpl; by rewrite lookup_insert_eq|].
  pose proof (static_push payload c1) as Hst. unfold static in Hst. congruence.
Qed.

Lemma reply_error_no_panic p content s c :
  heap s !! p = Some c → closed (send c) = false →
  reply_error json_Marshal p content s ≠ Panic.
Proof.
  intros Hp Hcl. unfold reply_error.
  destruct (json_Marshal (errorMsg content)) as [payload|]; [|done].
  rewrite (send_blocking_spec p payload s c) by done.
  by destruct (queue_full s p).
Qed.

Lemma sendInitialData_no_panic get p now s c :
  heap s !! p = Some c → closed (send c) = false →
  sendInitialData json_Marshal get p now s ≠ Panic.
Proof.
  intros Hp Hcl. unfold sendInitialData. rewrite (deref_Some _ _ _ Hp). simpl.
  by eapply initial_rooms_no_panic.
Qed.

Lemma readPump_frame_no_panic p frame now s c :
  heap s !! p = Some c → closed (send c) = false →
  readPump_frame json_Marshal json_Unmarshal p frame now s ≠ Panic.
Proof.
  intros Hp Hcl. unfold readPump_frame. rewrite (deref_Some _ _ _ Hp). simpl.
  destruct (json_Unmarshal frame) as [m|]; [|done].
  destruct (rate.Allow now (limiter c)) as [ok lim].
  assert (∀ content,
    reply_error json_Marshal p content
      (set_heap (<[p := set_limiter c lim]>) s) ≠ Panic) as Hreply.
  { intros content. apply (reply_error_no_panic p content _ (set_limiter c lim));
      [simpl; by rewrite lookup_insert_eq | done]. }
  destruct ok; simpl.
  - destruct (canAccessRoom c (ChatRoom m)); simpl; [done|].
    specialize (Hreply "Room access denied").
    by destruct (reply_error _ _ _ _).
  - specialize (Hreply "Rate limit exceeded").
    by destruct (reply_error _ _ _ _).
Qed.


(** While a connection is registered, neither its initial-data task nor
    its read pump sends on a closed queue: in every state the system can
    reach, sendInitialData and the handling of a frame end or wait for a
    slot, and never panic. *)
Theorem registered_tasks_never_panic σ p get frame now :
  reachable json_Marshal json_Unmarshal σ →
  p ∈ clients (hub σ) →
  sendInitialData json_Marshal get p now (hub σ) ≠ Panic ∧
  readPump_frame json_Marshal json_Unmarshal p frame now (hub σ) ≠ Panic.
Proof.
  intros Hreach Hin.
  destruct (sys_open σ (reachable_SysInv _ _ σ Hreach) p Hin) as [[c Hp] Hcl].
  unfold queue_closed in Hcl. rewrite Hp in Hcl. split.
  - by eapply sendInitialData_no_panic.
  - by eapply readPump_frame_no_panic.
Qed.

End task_facts.

(** ** The queue of a deregistered connection *)

Section closed_queue_facts.

Context {Payload : Type}.
Variable json_Marshal : WSMessage → option Payload.
Variable json_Unmarshal : Payload → option WSMessage.
Implicit Types (s : @State Payload) (c : @Client Payload).
Implicit Types (σ : @System Payload).
Implicit Types (p q : ptr) (r room : string).










End closed_queue_facts.

(** ** The runs *)

Import scenario.

(** Closed goals are settled by evaluation. *)
Ltac by_eval := vm_compute; reflexivity.
Ltac by_decide := apply (bool_decide_unpack _); vm_compute; exact I.


Lemma fresh_new_client u rs n k : 0 < n → fresh_client (new_client u rs n k).
Proof. intros Hn. unfold fresh_client. simpl. by split_and!. Qed.

Lemma reachable_connect σ p c now :
  reachable enc dec σ → coordinator σ = Running →
  heap (hub σ) !! p = None → fresh_client c →
  reachable enc dec (connect p c now σ).
Proof.
  intros Hσ Hrun Hp Hc. unfold connect.
  destruct (handleRegister_run enc p c now (set_heap (<[p := c]>) (hub σ)))
    as (visited & rest & _ & _ & _ & _ & _ & _ & _ & _ & Hcase).
  { simpl. by rewrite lookup_insert_eq. }
  destruct (handleRegister enc p now _) as [s' ending] eqn:E. simpl in *.
  eapply reach_register; try done. intros ->. done.
Qed.

Lemma reachable_hang_up σ p :
  reachable enc dec σ → p ∈ reading σ → reachable enc dec (hang_up p σ).
Proof. intros Hσ Hp. by apply reach_pump_end. Qed.

Lemma reachable_disconnect σ p now :
  reachable enc dec σ → coordinator σ = Running → p ∈ leaving σ →
  reachable enc dec (disconnect p now σ).
Proof.
  intros Hσ Hrun Hp. unfold disconnect.
  assert ((handleUnregister enc p now (hub σ)).2 ≠ Panic) as Hend.
  { destruct (decide (p ∈ clients (hub σ))) as [Hin|Hnin].
    - destruct (sys_open σ (reachable_SysInv _ _ σ Hσ) p Hin) as [[c Hc] Hcl].
      unfold queue_closed in Hcl. rewrite Hc in Hcl.
      destruct (handleUnregister_run enc p c now (hub σ) Hin Hc Hcl)
        as (visited & rest & _ & _ & _ & _ & _ & _ & _ & _ & Hcase).
      intros E. by rewrite E in Hcase.
    - by rewrite handleUnregister_absent. }
  destruct (handleUnregister enc p now (hub σ)) as [s' ending] eqn:E.
  simpl in *. eapply reach_unregister; try done. by left.
Qed.

Lemma reachable_cast σ message now :
  reachable enc dec σ → coordinator σ = Running →
  reachable enc dec (cast message now σ).
Proof.
  intros Hσ Hrun. unfold cast.
  destruct (handleBroadcast enc message now (hub σ)) as [s'| |] eqn:E; simpl.
  - by eapply reach_broadcast.
  - by destruct σ.
  - by destruct σ.
Qed.

Lemma reachable_read σ p frame now :
  reachable enc dec σ → p ∈ reading σ →
  reachable enc dec (read p frame now σ).
Proof.
  intros Hσ Hp. unfold read.
  destruct (readPump_frame enc dec p frame now (hub σ)) as [[s' o]| |] eqn:E;
    simpl.
  - by eapply reach_frame.
  - by destruct σ.
  - by destruct σ.
Qed.

Lemma reachable_polled : reachable enc dec polled.
Proof. apply (reach_poll enc dec start (Some [m1_live]) (ms 1)), reach_start. Qed.

Lemma reachable_announced : reachable enc dec announced.
Proof. apply reachable_cast; [apply reachable_polled | done]. Qed.

Lemma reachable_alice_in : reachable enc dec alice_in.
Proof.
  apply reachable_connect;
    [apply reach_start | done | done | apply fresh_new_client; lia].
Qed.


Lemma reachable_carol_in : reachable enc dec carol_in.
Proof.
  apply reachable_connect;
    [apply reach_start | done | done | apply fresh_new_client; lia].
Qed.

Lemma reachable_dave_in : reachable enc dec dave_in.
Proof.
  apply reachable_connect;
    [apply reachable_carol_in | by_eval | by_eval | apply fresh_new_client; lia].
Qed.

Lemma reachable_refused_once : reachable enc dec refused_once.
Proof.
  apply reachable_read; [|by_decide].
  apply reachable_read; [apply reachable_dave_in | by_decide].
Qed.

Lemma reachable_carol_left : reachable enc dec (hang_up 3 refused_once).
Proof. apply reachable_hang_up; [apply reachable_refused_once | by_decide]. Qed.

Lemma reachable_carol_out : reachable enc dec carol_out.
Proof.
  apply reachable_disconnect; [apply reachable_carol_left | by_eval | by_decide].
Qed.

Lemma Inv_seat p c s :
  Inv s → heap s !! p = None → closed (send c) = false → Inv (seat p c s).
Proof. intros HI Hp Hc. by apply (Inv_registered s (seat p c s) p c). Qed.

Lemma Inv_a1 : Inv a1.
Proof. apply Inv_seat; [apply Inv_NewHub | done | done]. Qed.

Lemma Inv_d2 : Inv d2.
Proof.
  apply Inv_seat; [|by_eval | done].
  apply Inv_seat; [apply Inv_NewHub | done | done].
Qed.

(** C2. The room limiter that checkRateLimit creates refills one token
    per second, with a bucket of ten: of thirty messages sent to a room a
    tenth of a second apart, the first ten and then one per second are
    admitted, twelve in all, whereas a limiter of ten messages per second
    with burst ten admits all thirty. *)
Theorem C2_room_limiter_refills_one_per_second :
  roomLimiters (checkRateLimit "m1" (ms 0) (@NewHub WSMessage)).2 !! "m1"
    = Some {| rate.period := rate.Second; rate.burst := 10;
              rate.credit := 9 * rate.Second; rate.last := ms 0 |} ∧
  admitted (room_admissions "m1" tenths (@NewHub WSMessage)) = 12 ∧
  admitted (limiter_admissions tenths (rate.NewLimiter (rate.PerSecond 10) 10))
    = 30.
Proof. repeat split; by_eval. Qed.

(** C10. The registration of a connection with the room "m1" and an
    empty queue of sixty-four slots, on a new hub. The join event holds
    the type, the room, the user and the time, and json.Marshal encodes
    it. handleRegister puts the connection into the member set of "m1"
    before the fan-out of the join event, as the claim says; but it
    calls broadcastToRoom while it holds h.mu, and broadcastToRoom waits
    for h.mu: the handler never returns, the join event reaches no
    queue, the gauge is not incremented and the coordinator handles
    nothing any more. The same fan-out with h.mu free would deliver the
    join event to the joiner. *)
Theorem C10_registration_stops_before_fanout :
  joinMsg "m1" alice (ms 0)
    = {| WS_Type := MessageTypeJoin; ChatRoom := "m1"; Content := zero_string;
         WS_User := Some alice; WS_Match := None; WS_Event := None;
         Timestamp := ms 0; Error := zero_string; Data := zero_string |} ∧
  handleRegister enc 1 (ms 0)
    (set_heap (<[1 := new_client alice ["m1"] 64 100]>) NewHub)
    = (hub alice_in, Blocked) ∧
  reachable enc dec alice_in ∧
  coordinator alice_in = Deadlocked ∧
  1 ∈ clients (hub alice_in) ∧
  1 ∈ rooms (hub alice_in) !!! "m1" ∧
  queue (hub alice_in) 1 = [] ∧
  ConnectedClients (hub alice_in) = 0%Z ∧
  ∃ s', broadcastToRoom enc "m1" (joinMsg "m1" alice (ms 0)) (hub alice_in)
          = Ok s' ∧
        queue s' 1 = [joinMsg "m1" alice (ms 0)].
Proof.
  split; [done|]. split; [by_eval|]. split; [apply reachable_alice_in|].
  split; [by_eval|]. split; [by_decide|]. split; [by_decide|].
  split; [by_eval|]. split; [by_eval|].
  exists (the (hub alice_in)
            (broadcastToRoom enc "m1" (joinMsg "m1" alice (ms 0))
               (hub alice_in))).
  split; by_eval.
Qed.

(** C1, the claim as worded fails: the poller has cached match "m1", and
    the room "m1", which no connection has joined, has no entry. *)
Lemma C1_counterexample :
  reachable enc dec polled ∧ ¬ entry_iff_members_or_cache (hub polled).
Proof.
  split; [apply reachable_polled|]. intros H.
  destruct (H "m1") as [_ Hm1].
  assert (matches (hub polled) !! "m1" = Some m1_live) as Hcache by by_eval.
  assert (rooms (hub polled) !! "m1" = None) as Hentry by by_eval.
  rewrite Hcache, Hentry in Hm1.
  destruct Hm1 as [ms Hms]; [right; eauto | done].
Qed.


(** C9, the claim as worded fails: the coordinator has handled the
    update event of match "m1"; the room "m1", which no connection has
    joined, has a limiter and no entry. *)
Lemma C9_counterexample :
  reachable enc dec announced ∧ ¬ limiter_only_with_entry (hub announced).
Proof.
  split; [apply reachable_announced|]. intros H.
  assert (rooms (hub announced) !! "m1" = None) as Hentry by by_eval.
  destruct (H "m1") as [ms Hms]; [|congruence].
  assert (roomLimiters (hub announced) !! "m1"
          = Some {| rate.period := rate.Second; rate.burst := 10;
                    rate.credit := 9 * rate.Second; rate.last := ms 2 |}) as ->
    by by_eval.
  eauto.
Qed.


Lemma Inv_polled : Inv (hub polled).
Proof. by apply (reachable_running_Inv enc dec polled reachable_polled). Qed.

Lemma Inv_carol_out : Inv (hub carol_out).
Proof.
  apply (reachable_running_Inv enc dec carol_out reachable_carol_out). by_eval.
Qed.

(** ** The theorems at work on the runs *)

Lemma C1_witness :
  reachable enc dec alice_in ∧
  1 ∈ clients (hub alice_in) ∧
  room_keys (client_at (hub alice_in) 1) = ["m1"] ∧
  rooms (hub alice_in) !! "m1" = Some {[1]} ∧
  (∀ r, is_Some (rooms (hub alice_in) !! r) ↔ rooms (hub alice_in) !!! r ≠ ∅) ∧
  (∀ p c now r rs,
     p ∈ clients (hub alice_in) → heap (hub alice_in) !! p = Some c →
     room_keys c = r :: rs → rooms (hub alice_in) !! r = Some {[p]} →
     rooms (handleUnregister enc p now (hub alice_in)).1 !! r = None ∧
     matches (handleUnregister enc p now (hub alice_in)).1
       = matches (hub alice_in)) ∧
  (∀ fetched now,
     rooms (fetchMatchUpdates fetched now (hub alice_in)).1 = rooms (hub alice_in)).
Proof.
  split; [apply reachable_alice_in|].
  split; [by_decide|].
  split; [by_eval|].
  split; [by_eval|].
  apply (C1_room_entry_iff_members enc dec alice_in);
    [apply reachable_alice_in].
Defined.

Lemma C3_witness :
  Inv d2 ∧
  enc (chat "m1" "hi") = Some (chat "m1" "hi") ∧
  rooms d2 !!! "m1" = ({[1; 2]} : gset nat) ∧
  queue_full d2 1 = true ∧
  queue_full d2 2 = false ∧
  ∃ s', broadcastToRoom enc "m1" (chat "m1" "hi") d2 = Ok s' ∧
    same_hub d2 s' ∧
    (∀ p, p ∈ rooms d2 !!! "m1" →
       if queue_full d2 p
       then queue s' p = queue d2 p ∧ GoUnregister p ∈ spawned s' ∧
            p ∈ clients s' ∧ p ∈ rooms s' !!! "m1" ∧ queue_closed s' p = false
       else queue s' p = queue d2 p ++ [chat "m1" "hi"]) ∧
    (∀ p, p ∉ rooms d2 !!! "m1" → heap s' !! p = heap d2 !! p) ∧
    (∀ t, t ∈ spawned s' →
       t ∈ spawned d2 ∨
       ∃ p, t = GoUnregister p ∧ p ∈ rooms d2 !!! "m1" ∧ queue_full d2 p = true).
Proof.
  split; [apply Inv_d2|].
  split; [reflexivity|].
  split; [by_eval|].
  split; [by_eval|].
  split; [by_eval|].
  apply (C3_fanout_delivers_or_evicts enc d2 "m1" (chat "m1" "hi") (chat "m1" "hi"));
    [apply Inv_d2 | reflexivity].
Defined.


Lemma C5_witness :
  NoDup (ID <$> [m1_live]) ∧
  (∀ m, needs_broadcast (matches a1) m = true ↔
        matches a1 !! ID m = None ∨
        ∃ old, matches a1 !! ID m = Some old ∧
          (HomeScore old ≠ HomeScore m ∨ AwayScore old ≠ AwayScore m ∨
           Status old ≠ Status m)) ∧
  (fetchMatchUpdates (Some [m1_live]) (ms 1) a1).2
    = (λ m, updateMsg m (ms 1))
        <$> filter (λ m, needs_broadcast (matches a1) m) [m1_live] ∧
  (∀ m, WS_Type (updateMsg m (ms 1)) = MessageTypeEvent ∧
        ChatRoom (updateMsg m (ms 1)) = ID m ∧
        WS_Match (updateMsg m (ms 1)) = Some m) ∧
  (∀ m, m ∈ [m1_live] →
     matches (fetchMatchUpdates (Some [m1_live]) (ms 1) a1).1 !! ID m
     = if needs_broadcast (matches a1) m then Some m else matches a1 !! ID m) ∧
  (∀ now',
     fetchMatchUpdates (Some [m1_live]) now'
       (fetchMatchUpdates (Some [m1_live]) (ms 1) a1).1
     = ((fetchMatchUpdates (Some [m1_live]) (ms 1) a1).1, [])).
Proof.
  assert (NoDup (ID <$> [m1_live])) as Hnd by by_decide.
  split; [exact Hnd|].
  apply (C5_poll_broadcasts_changes_only a1 (ms 1) [m1_live] Hnd).
Defined.




Lemma C9_witness :
  (a4 = (handleUnregister enc 1 (ms 30) a3).1 ∨
  a4 = (handleRegister enc 1 (ms 30) a3).1) ∧
  rooms a3 !! "m1" = Some {[1]} ∧
  rooms a4 !! "m1" = None ∧
  roomLimiters a3 !! "m1"
    = Some {| rate.period := rate.Second; rate.burst := 10;
              rate.credit := 9000000; rate.last := ms 19 |} ∧
  roomLimiters a4 = roomLimiters a3 ∧
  (∀ room lim now',
     roomLimiters a3 !! room = Some lim →
     (checkRateLimit room now' a4).1 = (rate.Allow now' lim).1 ∧
     roomLimiters (checkRateLimit room now' a4).2 !! room
       = Some (rate.Allow now' lim).2) ∧
  (∀ room now',
     roomLimiters a3 !! room = None →
     roomLimiters (checkRateLimit room now' a4).2 !! room
       = Some (rate.Allow now' (rate.NewLimiter (rate.Every rate.Second) 10)).2).
Proof.
  split; [by left|].
  split; [by_eval|].
  split; [by_eval|].
  split; [by_eval|].
  apply (C9_room_limiter_persists enc a3 1 (ms 30) a4);
    [by left].
Defined.

(** ** The further theorems at work on the runs *)

Lemma handleRegister_stops_at_first_event_witness :
  (heap (set_heap (<[1 := new_client alice ["m1"] 64 100]>) NewHub) !! 1 = Some (new_client alice ["m1"] 64 100) ∧
   room_keys (new_client alice ["m1"] 64 100) = ["m1"] ∧
   (∀ room rest,
      room_keys (new_client alice ["m1"] 64 100) = room :: rest →
      is_Some (enc
                 {| WS_Type := MessageTypeJoin; ChatRoom := room;
               Content := zero_string; WS_User := Some (user (new_client alice ["m1"] 64 100));
               WS_Match := None; WS_Event := None; Timestamp := (ms 0);
               Error := zero_string; Data := zero_string |}) →
      handleRegister enc 1 (ms 0) (set_heap (<[1 := new_client alice ["m1"] 64 100]>) NewHub)
        = (set_rooms (join 1 room)
             (go (GoSendInitialData 1) (set_clients (λ cs, {[1]} ∪ cs) (set_heap (<[1 := new_client alice ["m1"] 64 100]>) NewHub))),
           Blocked) ∧
      1 ∈ rooms (handleRegister enc 1 (ms 0) (set_heap (<[1 := new_client alice ["m1"] 64 100]>) NewHub)).1 !!! room ∧
      heap (handleRegister enc 1 (ms 0) (set_heap (<[1 := new_client alice ["m1"] 64 100]>) NewHub)).1 = heap (set_heap (<[1 := new_client alice ["m1"] 64 100]>) NewHub) ∧
      ConnectedClients (handleRegister enc 1 (ms 0) (set_heap (<[1 := new_client alice ["m1"] 64 100]>) NewHub)).1
        = ConnectedClients (set_heap (<[1 := new_client alice ["m1"] 64 100]>) NewHub)) ∧
   (room_keys (new_client alice ["m1"] 64 100) = [] →
      handleRegister enc 1 (ms 0) (set_heap (<[1 := new_client alice ["m1"] 64 100]>) NewHub)
        = (add_ConnectedClients 1
             (go (GoSendInitialData 1) (set_clients (λ cs, {[1]} ∪ cs) (set_heap (<[1 := new_client alice ["m1"] 64 100]>) NewHub))),
           Ok tt))) ∧
  (heap (set_heap (<[3 := new_client carol [] 1 1]>) NewHub) !! 3 = Some (new_client carol [] 1 1) ∧
   room_keys (new_client carol [] 1 1) = [] ∧
   (∀ room rest,
      room_keys (new_client carol [] 1 1) = room :: rest →
      is_Some (enc
                 {| WS_Type := MessageTypeJoin; ChatRoom := room;
               Content := zero_string; WS_User := Some (user (new_client carol [] 1 1));
               WS_Match := None; WS_Event := None; Timestamp := (ms 0);
               Error := zero_string; Data := zero_string |}) →
      handleRegister enc 3 (ms 0) (set_heap (<[3 := new_client carol [] 1 1]>) NewHub)
        = (set_rooms (join 3 room)
             (go (GoSendInitialData 3) (set_clients (λ cs, {[3]} ∪ cs) (set_heap (<[3 := new_client carol [] 1 1]>) NewHub))),
           Blocked) ∧
      3 ∈ rooms (handleRegister enc 3 (ms 0) (set_heap (<[3 := new_client carol [] 1 1]>) NewHub)).1 !!! room ∧
      heap (handleRegister enc 3 (ms 0) (set_heap (<[3 := new_client carol [] 1 1]>) NewHub)).1 = heap (set_heap (<[3 := new_client carol [] 1 1]>) NewHub) ∧
      ConnectedClients (handleRegister enc 3 (ms 0) (set_heap (<[3 := new_client carol [] 1 1]>) NewHub)).1
        = ConnectedClients (set_heap (<[3 := new_client carol [] 1 1]>) NewHub)) ∧
   (room_keys (new_client carol [] 1 1) = [] →
      handleRegister enc 3 (ms 0) (set_heap (<[3 := new_client carol [] 1 1]>) NewHub)
        = (add_ConnectedClients 1
             (go (GoSendInitialData 3) (set_clients (λ cs, {[3]} ∪ cs) (set_heap (<[3 := new_client carol [] 1 1]>) NewHub))),
           Ok tt))).
Proof.
  split.
  - split; [reflexivity|].
    split; [by_eval|].
    apply (handleRegister_stops_at_first_event enc
           (set_heap (<[1 := new_client alice ["m1"] 64 100]>) NewHub) 1
           (new_client alice ["m1"] 64 100) (ms 0));
    [reflexivity].
  - split; [reflexivity|].
    split; [by_eval|].
    apply (handleRegister_stops_at_first_event enc (set_heap (<[3 := new_client carol [] 1 1]>) NewHub) 3
           (new_client carol [] 1 1) (ms 0));
    [reflexivity].
Defined.

Lemma handleUnregister_stops_at_first_event_witness :
  (1 ∈ clients (hub alice_in) ∧
   heap (hub alice_in) !! 1 = Some (client_at (hub alice_in) 1) ∧
   closed (send (client_at (hub alice_in) 1)) = false ∧
   room_keys (client_at (hub alice_in) 1) = ["m1"] ∧
   rooms (hub alice_in) !! "m1" = Some {[1]} ∧
   (∀ room rest members,
      room_keys (client_at (hub alice_in) 1) = room :: rest →
      rooms (hub alice_in) !! room = Some members →
      is_Some (enc
                 {| WS_Type := MessageTypeLeave; ChatRoom := room;
               Content := zero_string; WS_User := Some (user (client_at (hub alice_in) 1));
               WS_Match := None; WS_Event := None; Timestamp := (ms 9);
               Error := zero_string; Data := zero_string |}) →
      (handleUnregister enc 1 (ms 9) (hub alice_in)).2 = Blocked ∧
      clients (handleUnregister enc 1 (ms 9) (hub alice_in)).1 = clients (hub alice_in) ∖ {[1]} ∧
      rooms (handleUnregister enc 1 (ms 9) (hub alice_in)).1
        = leave 1 room members (rooms (hub alice_in)) ∧
      (1 ∉ rooms (handleUnregister enc 1 (ms 9) (hub alice_in)).1 !!! room) ∧
      queue_closed (handleUnregister enc 1 (ms 9) (hub alice_in)).1 1 = true ∧
      queue (handleUnregister enc 1 (ms 9) (hub alice_in)).1 1 = queue (hub alice_in) 1 ∧
      (∀ q, q ≠ 1 →
         heap (handleUnregister enc 1 (ms 9) (hub alice_in)).1 !! q = heap (hub alice_in) !! q) ∧
      ConnectedClients (handleUnregister enc 1 (ms 9) (hub alice_in)).1
        = ConnectedClients (hub alice_in)) ∧
   (room_keys (client_at (hub alice_in) 1) = [] →
      (handleUnregister enc 1 (ms 9) (hub alice_in)).2 = Ok tt ∧
      clients (handleUnregister enc 1 (ms 9) (hub alice_in)).1 = clients (hub alice_in) ∖ {[1]} ∧
      rooms (handleUnregister enc 1 (ms 9) (hub alice_in)).1 = rooms (hub alice_in) ∧
      queue_closed (handleUnregister enc 1 (ms 9) (hub alice_in)).1 1 = true ∧
      queue (handleUnregister enc 1 (ms 9) (hub alice_in)).1 1 = queue (hub alice_in) 1 ∧
      ConnectedClients (handleUnregister enc 1 (ms 9) (hub alice_in)).1
        = (ConnectedClients (hub alice_in) - 1)%Z)) ∧
  (3 ∈ clients (hub refused_once) ∧
   heap (hub refused_once) !! 3 = Some (client_at (hub refused_once) 3) ∧
   closed (send (client_at (hub refused_once) 3)) = false ∧
   room_keys (client_at (hub refused_once) 3) = [] ∧
   (∀ room rest members,
      room_keys (client_at (hub refused_once) 3) = room :: rest →
      rooms (hub refused_once) !! room = Some members →
      is_Some (enc
                 {| WS_Type := MessageTypeLeave; ChatRoom := room;
               Content := zero_string; WS_User := Some (user (client_at (hub refused_once) 3));
               WS_Match := None; WS_Event := None; Timestamp := (ms 5);
               Error := zero_string; Data := zero_string |}) →
      (handleUnregister enc 3 (ms 5) (hub refused_once)).2 = Blocked ∧
      clients (handleUnregister enc 3 (ms 5) (hub refused_once)).1 = clients (hub refused_once) ∖ {[3]} ∧
      rooms (handleUnregister enc 3 (ms 5) (hub refused_once)).1
        = leave 3 room members (rooms (hub refused_once)) ∧
      (3 ∉ rooms (handleUnregister enc 3 (ms 5) (hub refused_once)).1 !!! room) ∧
      queue_closed (handleUnregister enc 3 (ms 5) (hub refused_once)).1 3 = true ∧
      queue (handleUnregister enc 3 (ms 5) (hub refused_once)).1 3 = queue (hub refused_once) 3 ∧
      (∀ q, q ≠ 3 →
         heap (handleUnregister enc 3 (ms 5) (hub refused_once)).1 !! q = heap (hub refused_once) !! q) ∧
      ConnectedClients (handleUnregister enc 3 (ms 5) (hub refused_once)).1
        = ConnectedClients (hub refused_once)) ∧
   (room_keys (client_at (hub refused_once) 3) = [] →
      (handleUnregister enc 3 (ms 5) (hub refused_once)).2 = Ok tt ∧
      clients (handleUnregister enc 3 (ms 5) (hub refused_once)).1 = clients (hub refused_once) ∖ {[3]} ∧
      rooms (handleUnregister enc 3 (ms 5) (hub refused_once)).1 = rooms (hub refused_once) ∧
      queue_closed (handleUnregister enc 3 (ms 5) (hub refused_once)).1 3 = true ∧
      queue (handleUnregister enc 3 (ms 5) (hub refused_once)).1 3 = queue (hub refused_once) 3 ∧
      ConnectedClients (handleUnregister enc 3 (ms 5) (hub refused_once)).1
        = (ConnectedClients (hub refused_once) - 1)%Z)).
Proof.
  split.
  - split; [by_decide|].
    split; [by_eval|].
    split; [by_eval|].
    split; [by_eval|].
    split; [by_eval|].
    apply (handleUnregister_stops_at_first_event enc (hub alice_in) 1
           (client_at (hub alice_in) 1) (ms 9));
    [by_decide | by_eval | by_eval].
  - split; [by_decide|].
    split; [by_eval|].
    split; [by_eval|].
    split; [by_eval|].
    apply (handleUnregister_stops_at_first_event enc (hub refused_once) 3
           (client_at (hub refused_once) 3) (ms 5));
    [by_decide | by_eval | by_eval].
Defined.

Lemma handleUnregister_idempotent_witness :
  handleUnregister enc 3 (ms 5) (hub refused_once) = ((hub carol_out), Ok tt) ∧
  handleUnregister enc 3 (ms 6) (hub carol_out) = ((hub carol_out), Ok tt).
Proof.
  split; [by_eval|].
  apply (handleUnregister_idempotent enc (hub refused_once) 3 (ms 5) (ms 6)
           (hub carol_out));
    [by_eval].
Defined.

Lemma handleBroadcast_effects_witness :
  Inv d2 ∧
  ∃ s', handleBroadcast enc (chat "m1" "hi") (ms 5) d2 = Ok s' ∧
    same_index d2 s' ∧ matches s' = matches d2 ∧
    ConnectedClients s' = ConnectedClients d2 ∧
    if (checkRateLimit (ChatRoom (chat "m1" "hi")) (ms 5) d2).1
    then MessagesSent s' = (MessagesSent d2 + 1)%Z ∧
         ∃ evicted,
           spawned s' =
             spawned d2
             ++ (if bool_decide (WS_Type (chat "m1" "hi") = MessageTypeChat)
                 then [GoPersistMessage (chat "m1" "hi")] else [])
             ++ (GoUnregister <$> evicted) ∧
           ∀ q, q ∈ evicted → q ∈ rooms d2 !!! ChatRoom (chat "m1" "hi")
    else MessagesSent s' = MessagesSent d2 ∧ spawned s' = spawned d2 ∧
         heap s' = heap d2.
Proof.
  split; [apply Inv_d2|].
  apply (handleBroadcast_effects enc d2 (chat "m1" "hi") (ms 5));
    [apply Inv_d2].
Defined.

Lemma deregistered_left_alone_witness :
  Inv (hub carol_out) ∧
  (3 ∉ clients (hub carol_out)) ∧
  queue_closed (hub carol_out) 3 = true ∧
  (∀ message now s',
     handleBroadcast enc message now (hub carol_out) = Ok s' →
     heap s' !! 3 = heap (hub carol_out) !! 3) ∧
  (∀ p' now,
     p' ≠ 3 →
     heap (handleUnregister enc p' now (hub carol_out)).1 !! 3 = heap (hub carol_out) !! 3) ∧
  (∀ p' c now,
     p' ≠ 3 → heap (hub carol_out) !! p' = None →
     heap (handleRegister enc p' now (set_heap (<[p' := c]>) (hub carol_out))).1 !! 3
       = heap (hub carol_out) !! 3).
Proof.
  split; [apply Inv_carol_out|].
  split; [by_decide|].
  split; [by_eval|].
  apply (deregistered_left_alone enc (hub carol_out) 3);
    [apply Inv_carol_out | by_decide].
Defined.


Lemma sendInitialData_only_appends_witness :
  ∃ s', sendInitialData enc recent 1 (ms 1) a1 = Ok s' ∧
    same_hub a1 s' ∧ same_counters a1 s' ∧ spawned s' = spawned a1 ∧
    (∀ q, q ≠ 1 → heap s' !! q = heap a1 !! q) ∧
    queue_closed s' 1 = queue_closed a1 1 ∧
    ∃ l, queue s' 1 = queue a1 1 ++ l.
Proof.
  exists (the a1 (sendInitialData enc recent 1 (ms 1) a1)).
  assert (sendInitialData enc recent 1 (ms 1) a1
          = Ok (the a1 (sendInitialData enc recent 1 (ms 1) a1))) as Hrun
    by by_eval.
  split; [exact Hrun|].
  apply (sendInitialData_only_appends enc recent 1 (ms 1) a1), Hrun.
Defined.

Lemma sendInitialData_history_overflow_witness :
  heap d2 !! 1 = Some (client_at d2 1) ∧
  slots d2 1 <
    length (omap (λ msg, enc (historyMsg "m1" msg))
                 [{| Msg_Content := "earlier"; Msg_User := Some bob;
                     CreatedAt := ms 0 |}]) ∧
  ∃ s', sendInitialData enc recent 1 (ms 5) d2 = Ok s' ∧
    queue s' 1 =
      queue d2 1
      ++ take (slots d2 1)
              (omap (λ msg, enc (historyMsg "m1" msg))
                    [{| Msg_Content := "earlier"; Msg_User := Some bob;
                        CreatedAt := ms 0 |}]) ∧
    slots s' 1 = 0 ∧ queue_closed s' 1 = false ∧ spawned s' = spawned d2.
Proof.
  assert (heap d2 !! 1 = Some (client_at d2 1)) as Hp by by_eval.
  assert (slots d2 1 <
          length (omap (λ msg, enc (historyMsg "m1" msg))
                       [{| Msg_Content := "earlier"; Msg_User := Some bob;
                           CreatedAt := ms 0 |}])) as Hover by by_decide.
  split; [exact Hp|]. split; [exact Hover|].
  apply (sendInitialData_history_overflow enc recent 1 (ms 5) d2
           (client_at d2 1) "m1" []).
  - exact Hp.
  - by_eval.
  - by_eval.
  - by_eval.
  - exact Hover.
Defined.

Lemma sendInitialData_room_then_snapshot_witness :
  heap a3 !! 1 = Some (client_at a3 1) ∧
  matches a3 !! "m1" = Some m1_live ∧
  match matches a3 !! "m1" ≫= (λ m, enc (matchMsg "m1" m (ms 31))) with
  | Some snapshot =>
      if bool_decide
           (length (omap (λ msg, enc (historyMsg "m1" msg))
                         [{| Msg_Content := "earlier"; Msg_User := Some bob;
                             CreatedAt := ms 0 |}])
            < slots a3 1)
      then ∃ s2,
        initial_rooms enc recent 1 (ms 31) ["m1"] a3
          = initial_rooms enc recent 1 (ms 31) [] s2 ∧
        queue s2 1 =
          queue a3 1
          ++ omap (λ msg, enc (historyMsg "m1" msg))
                  [{| Msg_Content := "earlier"; Msg_User := Some bob;
                      CreatedAt := ms 0 |}]
          ++ [snapshot] ∧
        only_appends 1 a3 s2
      else initial_rooms enc recent 1 (ms 31) ["m1"] a3 = Blocked
  | None =>
      ∃ s2,
        initial_rooms enc recent 1 (ms 31) ["m1"] a3
          = initial_rooms enc recent 1 (ms 31) [] s2 ∧
        queue s2 1 =
          queue a3 1
          ++ omap (λ msg, enc (historyMsg "m1" msg))
                  [{| Msg_Content := "earlier"; Msg_User := Some bob;
                      CreatedAt := ms 0 |}] ∧
        only_appends 1 a3 s2
  end.
Proof.
  assert (heap a3 !! 1 = Some (client_at a3 1)) as Hp by by_eval.
  split; [exact Hp|]. split; [by_eval|].
  apply (sendInitialData_room_then_snapshot enc recent 1 (ms 31) a3
           (client_at a3 1) "m1" []).
  - exact Hp.
  - by_eval.
  - by_eval.
  - by_decide.
Defined.

Lemma writePump_flushes_then_closes_witness :
  3 ∈ clients (hub refused_once) ∧
  heap (hub refused_once) !! 3 = Some (client_at (hub refused_once) 3) ∧
  closed (send (client_at (hub refused_once) 3)) = false ∧
  queue (hub refused_once) 3 = [errorMsg "Room access denied"] ∧
  (queue (hub refused_once) 3 = [] →
   ∀ nw cl,
     writePump_recv nw cl 3 (handleUnregister enc 3 (ms 5) (hub refused_once)).1
       = Some ((handleUnregister enc 3 (ms 5) (hub refused_once)).1,
               [CloseMessage], false)) ∧
  (queue (hub refused_once) 3 ≠ [] →
   ∃ s1,
     (∀ cl, writePump_recv true cl 3 (handleUnregister enc 3 (ms 5) (hub refused_once)).1
            = Some (s1, [TextMessage (queue (hub refused_once) 3)], cl)) ∧
     ∀ nw cl, writePump_recv nw cl 3 s1 = Some (s1, [CloseMessage], false)).
Proof.
  split; [by_decide|].
  split; [by_eval|].
  split; [by_eval|].
  split; [by_eval|].
  apply (writePump_flushes_then_closes enc (hub refused_once) 3
           (client_at (hub refused_once) 3) (ms 5));
    [by_decide | by_eval | by_eval].
Defined.

Lemma broadcasts_written_in_order_witness :
  Inv a1 ∧ 1 ∈ rooms a1 !!! "m1" ∧ 2 ≤ slots a1 1 ∧
  ∃ s1, handleBroadcast enc (chat "m1" "one") (ms 10) a1 = Ok s1 ∧
    ((checkRateLimit (ChatRoom (chat "m1" "two")) (ms 11) s1).1 = true →
     ∃ s2, handleBroadcast enc (chat "m1" "two") (ms 11) s1 = Ok s2 ∧
       ∀ cl, ∃ s3,
         writePump_recv true cl 1 s2
           = Some (s3, [TextMessage (queue a1 1 ++ [chat "m1" "one";
                                                    chat "m1" "two"])], cl) ∧
         queue s3 1 = [] ∧ queue_closed s3 1 = false).
Proof.
  split; [apply Inv_a1|].
  assert (1 ∈ rooms a1 !!! "m1") as Hin by by_decide.
  assert (2 ≤ slots a1 1) as Hslots by by_decide.
  split; [exact Hin|]. split; [exact Hslots|].
  apply (broadcasts_written_in_order enc a1 (chat "m1" "one")
           (chat "m1" "two") (chat "m1" "one") (chat "m1" "two")
           (ms 10) (ms 11) 1).
  - apply Inv_a1.
  - reflexivity.
  - reflexivity.
  - exact Hin.
  - exact Hin.
  - exact Hslots.
  - by_eval.
Defined.

Lemma readPump_frame_submits_own_witness :
  readPump_frame enc dec 1 hello (ms 21) b1 = Ok (b2, Some hello_stamped) ∧
  (∃ m, dec hello = Some m ∧ WS_Type hello_stamped = WS_Type m ∧
        ChatRoom hello_stamped = ChatRoom m ∧
        Content hello_stamped = Content m) ∧
  WS_User hello_stamped = Some (user (client_at b1 1)) ∧
  Timestamp hello_stamped = ms 21 ∧
  c_rooms (client_at b1 1) !! ChatRoom hello_stamped = Some true ∧
  (rate.Allow (ms 21) (limiter (client_at b1 1))).1 = true ∧
  heap b2 !! 1
    = Some (set_limiter (client_at b1 1)
              (rate.Allow (ms 21) (limiter (client_at b1 1))).2) ∧
  queue b2 1 = queue b1 1 ∧
  persistMessage hello_stamped =
    Ok {| ChatRoomID := ChatRoom hello_stamped;
          UserID := User_ID (user (client_at b1 1));
          Row_Content := Content hello_stamped;
          MessageType := MessageTypeChat;
          Row_CreatedAt := ms 21 |}.
Proof.
  assert (readPump_frame enc dec 1 hello (ms 21) b1
          = Ok (b2, Some hello_stamped)) as Hrun by by_eval.
  split; [exact Hrun|].
  apply (readPump_frame_submits_own enc dec b1 1 (client_at b1 1) hello
           (ms 21) b2 hello_stamped); [by_eval | exact Hrun].
Defined.

Lemma cache_entry_is_room_match_witness :
  reachable enc dec announced ∧
  matches (hub announced) !! "m1" = Some m1_live ∧
  ID m1_live = "m1".
Proof.
  split; [apply reachable_announced|].
  split; [by_eval|].
  apply (cache_entry_is_room_match enc dec announced "m1" m1_live);
    [apply reachable_announced | by_eval].
Defined.

Lemma poller_events_not_persisted_witness :
  (updateMsg m1_live (ms 1)) ∈ (fetchMatchUpdates (Some [m1_live]) (ms 1) (@NewHub WSMessage)).2 ∧
  Inv (hub polled) ∧
  persistMessage (updateMsg m1_live (ms 1)) = Panic ∧
  ∃ s', handleBroadcast enc (updateMsg m1_live (ms 1)) (ms 2) (hub polled) = Ok s' ∧
    ∀ m, GoPersistMessage m ∈ spawned s' → GoPersistMessage m ∈ spawned (hub polled).
Proof.
  split; [by_decide|].
  split; [apply Inv_polled|].
  apply (poller_events_not_persisted enc (@NewHub WSMessage) [m1_live] (ms 1)
           (updateMsg m1_live (ms 1)) (hub polled) (ms 2));
    [by_decide | apply Inv_polled].
Defined.

Lemma room_limiters_independent_witness :
  handleBroadcast enc (chat "m1" "x") (ms 10) a1
    = Ok (the a1 (handleBroadcast enc (chat "m1" "x") (ms 10) a1)) ∧
  room_admissions "m2" tenths
    (the a1 (handleBroadcast enc (chat "m1" "x") (ms 10) a1))
  = room_admissions "m2" tenths a1.
Proof.
  assert (handleBroadcast enc (chat "m1" "x") (ms 10) a1
          = Ok (the a1 (handleBroadcast enc (chat "m1" "x") (ms 10) a1)))
    as Hrun by by_eval.
  split; [exact Hrun|].
  apply (room_limiters_independent enc a1 (chat "m1" "x") (ms 10) _ "m2" tenths);
    [exact Hrun | by_decide].
Defined.

Lemma registered_tasks_never_panic_witness :
  reachable enc dec refused_once ∧
  4 ∈ clients (hub refused_once) ∧
  sendInitialData enc recent 4 (ms 5) (hub refused_once) ≠ Panic ∧
  readPump_frame enc dec 4 (chat "m3" "a") (ms 5) (hub refused_once) ≠ Panic.
Proof.
  split; [apply reachable_refused_once|].
  split; [by_decide|].
  apply (registered_tasks_never_panic enc dec refused_once 4 recent (chat "m3" "a") (ms 5));
    [apply reachable_refused_once | by_decide].
Defined.
